(** * Horizon ingestion scheduler ([ingest/system.go])

    A shallow embedding of the scheduling layer of the ledger ingestion
    system: the forward tick ([Tick], [newTickSession], [runOnce]), the
    chain validator ([validateLedgerChain]) and the reingestion entry points
    ([ReingestAll], [ReingestOutdated], [ReingestRange], [ReingestSingle]).

    Go's [int32] and [int] are integers of [Z] with the wrap-around written
    out.  Sessions are heap objects reached through pointers; the [System]
    holds the mutex and the [current] pointer.  Everything the file calls but
    does not define (the ledger state cache, the two databases, the session
    worker, the fault reporter) is a collaborator acting on an abstract
    world. *)

From Stdlib Require Import ZArith Lia List String Sorted.
From stdpp Require Import base tactics option list.
Import ListNotations.

Local Open Scope Z_scope.

(** ** Machine integers *)

Module Int32.
Definition min_signed : Z := - 2 ^ 31.
Definition max_signed : Z := 2 ^ 31 - 1.
Definition modulus : Z := 2 ^ 32.

Definition in_range (z : Z) : Prop := min_signed <= z <= max_signed.

(** Two's complement wrap-around of a 32-bit signed integer. *)
Definition wrap (z : Z) : Z := (z - min_signed) mod modulus + min_signed.

Definition add (a b : Z) : Z := wrap (a + b).
Definition sub (a b : Z) : Z := wrap (a - b).
End Int32.

(** Go's [int], 64 bits wide on the platforms the service is built for. *)
Module Int.
Definition min_signed : Z := - 2 ^ 63.
Definition max_signed : Z := 2 ^ 63 - 1.
Definition modulus : Z := 2 ^ 64.
Definition in_range (z : Z) : Prop := min_signed <= z <= max_signed.
Definition wrap (z : Z) : Z := (z - min_signed) mod modulus + min_signed.
Definition add (a b : Z) : Z := wrap (a + b).
End Int.

(** ** Data model *)

(** The value carried by a Go panic, as [recover()] hands it back. *)
Inductive PanicValue : Type :=
  | PanicMsg (msg : string).

(** Go [error] values.  [err2.New] and [err2.Wrap] are the two constructors
    [validateLedgerChain] uses; [errors.FromPanic] builds the structured error
    of a recovered panic; everything else comes from a collaborator. *)
Inductive error : Type :=
  | ErrExternal (msg : string)
  | ErrNew (msg : string)
  | ErrWrap (cause : error) (msg : string)
  | ErrFromPanic (p : PanicValue).

(** Modelled from the spec: [ledger.State] (package [ledger] is not part of
    the sources at hand), section 3: the three sequence boundaries. *)
Record LedgerState : Type := mkLedgerState {
  CoreElder : Z;
  CoreLatest : Z;
  HistoryLatest : Z
}.

(** Modelled from the spec: [core.LedgerHeader] (package [db2/core] is not
    part of the sources at hand), section 3. *)
Record LedgerHeader : Type := mkLedgerHeader {
  Sequence : Z;
  LedgerHash : string;
  PrevHash : string
}.

(** Modelled from the spec: the [Cursor] of a session (its declaration is not
    part of the sources at hand); [system.go] reads [FirstLedger] and
    [LastLedger] from it. *)
Record Cursor : Type := mkCursor {
  FirstLedger : Z;
  LastLedger : Z
}.

(** Modelled from the spec: the [Session] struct (its declaration is not part
    of the sources at hand), section 3; [system.go] uses exactly these
    fields. *)
Record Session : Type := mkSession {
  SessionCursor : Cursor;
  ClearExisting : bool;
  Ingested : Z;
  Err : option error
}.

(** Modelled from the spec: [NewSession] (defined next to [Session], not part
    of the sources at hand).  Section 3 and 4.1: a fresh session over
    [[first, last]], not in clear-existing mode, nothing ingested, no
    outcome yet. *)
Definition NewSession (first last : Z) : Session :=
  {| SessionCursor := {| FirstLedger := first; LastLedger := last |};
     ClearExisting := false;
     Ingested := 0;
     Err := None |}.

(** [is.ClearExisting = true] *)
Definition set_ClearExisting (b : bool) (s : Session) : Session :=
  {| SessionCursor := SessionCursor s;
     ClearExisting := b;
     Ingested := Ingested s;
     Err := Err s |}.

(** Pointers to sessions are indices into the heap of session objects. *)
Abbreviation ptr := nat (only parsing).

(** The part of [System] that [system.go] reads and writes: the mutex and the
    slot of the running session. *)
Record System : Type := mkSystem {
  lock : bool;
  current : option ptr
}.

(** ** Observable events *)

(** One constructor per logging site of [system.go]. *)
Inductive log_entry : Type :=
  | LogReingestOutdated (lowest_sequence : Z) (batch_size : nat)
  | LogAlreadyInProgress
  | LogSessionPanicked (e : error)
  | LogNilCurrentSession
  | LogHistoryEmpty (first : Z)
  | LogLedgerGap (start : Z) (e : error)
  | LogSessionFailed (e : error).

(** Calls to collaborators, log lines, and (as ghost events) the panics
    raised and the writes to the [current] slot, in the order in which they
    happen. *)
Inductive event : Type :=
  | EvCurrentState (ls : LedgerState)
  | EvHeaderBySequence (seq : Z)
  | EvOutdatedLedgers (version : Z)
  | EvRun (p : ptr) (s : Session)
  | EvSentry (e : error)
  | EvLog (l : log_entry)
  | EvPanic (p : PanicValue)
  | EvInstall (p : ptr)
  | EvRelease.

(** ** Collaborators *)

(** What a call to a collaborator can do: return a value, return an error,
    or panic. *)
Inductive reply (A : Type) : Type :=
  | Ok (a : A)
  | Fail (e : error)
  | Panics (p : PanicValue).
Arguments Ok {A} a.
Arguments Fail {A} e.
Arguments Panics {A} p.

(** The collaborators of the scheduler, acting on a world that holds both
    stores and the cached ledger state.
    - [CurrentState]: [ledger.CurrentState()], a read of the cached
      snapshot; it has no error result and does not panic.
    - [LedgerHeaderBySequence]: the header lookup on the core store.
    - [OldestOutdatedLedgers]: the query for ledgers ingested by an older
      version, on the history store.
    - [SessionRun]: the [Run] method of a session; it receives the session
      object and leaves it updated ([Ingested], [Err]), and may panic
      half-way.
    - [CurrentVersion]: the ingestion version constant. *)
Class Collaborators : Type := {
  World : Type;
  CurrentState : World -> LedgerState * World;
  LedgerHeaderBySequence : Z -> World -> reply LedgerHeader * World;
  OldestOutdatedLedgers : Z -> World -> reply (list Z) * World;
  SessionRun : Session -> World -> (Session * option PanicValue) * World;
  CurrentVersion : Z
}.

(** ** The execution monad *)

(** The mutable state a call works on: the [System] fields, the session
    objects, and the collaborators' world. *)
Record Machine `{Collaborators} : Type := mkMachine {
  sys : System;
  heap : list Session;
  world : World
}.

(** Why a call never comes back (no deferred function runs in these cases). *)
Inductive halt_reason : Type :=
  | Blocked          (* [Lock] on a mutex that is held *)
  | UnlockOfUnlocked (* the runtime's fatal error *)
  | OutOfFuel.       (* the loop bound of the model was reached *)

Inductive Outcome (A : Type) : Type :=
  | Ret (a : A)
  | Panic (p : PanicValue)
  | Halt (r : halt_reason).
Arguments Ret {A} a.
Arguments Panic {A} p.
Arguments Halt {A} r.

Section Monad.
Context `{Collaborators}.

(** A computation: from a machine state to its outcome, the state it
    leaves, and the events it emitted, oldest first. *)
Definition Result (A : Type) : Type := Outcome A * Machine * list event.
Definition M (A : Type) : Type := Machine -> Result A.

Definition outcome_of {A} (r : Result A) : Outcome A := fst (fst r).
Definition final_of {A} (r : Result A) : Machine := snd (fst r).
Definition events_of {A} (r : Result A) : list event := snd r.

(** The result [r] of a continuation, after the events [ev] that came
    before it. *)
Definition prepend {A} (ev : list event) (r : Result A) : Result A :=
  match r with (o, m, ev') => (o, m, ev ++ ev') end.

Definition ret {A} (a : A) : M A := fun m => (Ret a, m, []).

Definition bind {A B} (c : M A) (k : A -> M B) : M B := fun m =>
  match c m with
  | (Ret a, m1, ev1) => prepend ev1 (k a m1)
  | (Panic p, m1, ev1) => (Panic p, m1, ev1)
  | (Halt r, m1, ev1) => (Halt r, m1, ev1)
  end.

Definition panic {A} (p : PanicValue) : M A := fun m => (Panic p, m, [EvPanic p]).
Definition halt {A} (r : halt_reason) : M A := fun m => (Halt r, m, []).
Definition emit (e : event) : M unit := fun m => (Ret tt, m, [e]).

(** [defer d; body]: [d] runs when [body] returns and when it panics; a
    panic of [body] goes on unwinding after [d]. *)
Definition defer {A} (d : M unit) (body : M A) : M A := fun m =>
  match body m with
  | (Ret a, m1, ev1) =>
      match d m1 with
      | (Ret _, m2, ev2) => (Ret a, m2, ev1 ++ ev2)
      | (Panic p, m2, ev2) => (Panic p, m2, ev1 ++ ev2)
      | (Halt r, m2, ev2) => (Halt r, m2, ev1 ++ ev2)
      end
  | (Panic p, m1, ev1) =>
      match d m1 with
      | (Ret _, m2, ev2) => (Panic p, m2, ev1 ++ ev2)
      | (Panic p', m2, ev2) => (Panic p', m2, ev1 ++ ev2)
      | (Halt r, m2, ev2) => (Halt r, m2, ev1 ++ ev2)
      end
  | (Halt r, m1, ev1) => (Halt r, m1, ev1)
  end.

(** [defer func() { rec := recover(); h rec }(); body] in a function
    without results: [h] receives what [recover()] returns, and a panic of
    [body] stops there. *)
Definition defer_recover (h : option PanicValue -> M unit) (body : M unit) : M unit :=
  fun m =>
  match body m with
  | (Ret _, m1, ev1) => prepend ev1 (h None m1)
  | (Panic p, m1, ev1) => prepend ev1 (h (Some p) m1)
  | (Halt r, m1, ev1) => (Halt r, m1, ev1)
  end.

(** *** The mutex and the slot *)

Definition set_sys (y : System) (m : Machine) : Machine :=
  {| sys := y; heap := heap m; world := world m |}.

(** [i.lock.Lock()] *)
Definition Lock : M unit := fun m =>
  if lock (sys m) then (Halt Blocked, m, [])
  else (Ret tt, set_sys {| lock := true; current := current (sys m) |} m, []).

(** [i.lock.Unlock()] *)
Definition Unlock : M unit := fun m =>
  if lock (sys m)
  then (Ret tt, set_sys {| lock := false; current := current (sys m) |} m, [])
  else (Halt UnlockOfUnlocked, m, []).

(** a read of [i.current] *)
Definition get_current : M (option ptr) := fun m => (Ret (current (sys m)), m, []).

(** [i.current = v] *)
Definition set_current (v : option ptr) : M unit := fun m =>
  (Ret tt, set_sys {| lock := lock (sys m); current := v |} m,
   [match v with Some p => EvInstall p | None => EvRelease end]).

(** *** Session objects *)

Definition nil_dereference : PanicValue :=
  PanicMsg "invalid memory address or nil pointer dereference".

(** a fresh object, as [&Session{...}] *)
Definition alloc (s : Session) : M ptr := fun m =>
  (Ret (length (heap m)),
   {| sys := sys m; heap := heap m ++ [s]; world := world m |}, []).

(** a read through a pointer *)
Definition deref (p : ptr) : M Session := fun m =>
  match heap m !! p with
  | Some s => (Ret s, m, [])
  | None => panic nil_dereference m
  end.

(** a write through a pointer *)
Definition update (p : ptr) (f : Session -> Session) : M unit := fun m =>
  match heap m !! p with
  | Some s => (Ret tt, {| sys := sys m; heap := <[p := f s]> (heap m); world := world m |}, [])
  | None => panic nil_dereference m
  end.

(** *** Calls to collaborators *)

Definition with_world (m : Machine) (w : World) : Machine :=
  {| sys := sys m; heap := heap m; world := w |}.

(** [ledger.CurrentState()] *)
Definition currentState : M LedgerState := fun m =>
  match CurrentState (world m) with
  | (ls, w) => (Ret ls, with_world m w, [EvCurrentState ls])
  end.

(** [q.LedgerHeaderBySequence(&h, seq)]: the header or the error *)
Definition ledgerHeaderBySequence (seq : Z) : M (LedgerHeader + error) := fun m =>
  match LedgerHeaderBySequence seq (world m) with
  | (Ok h, w) => (Ret (inl h), with_world m w, [EvHeaderBySequence seq])
  | (Fail e, w) => (Ret (inr e), with_world m w, [EvHeaderBySequence seq])
  | (Panics p, w) => (Panic p, with_world m w, [EvHeaderBySequence seq; EvPanic p])
  end.

(** [q.OldestOutdatedLedgers(&outdated, version)]: the list or the error *)
Definition oldestOutdatedLedgers (version : Z) : M (list Z + error) := fun m =>
  match OldestOutdatedLedgers version (world m) with
  | (Ok l, w) => (Ret (inl l), with_world m w, [EvOutdatedLedgers version])
  | (Fail e, w) => (Ret (inr e), with_world m w, [EvOutdatedLedgers version])
  | (Panics p, w) => (Panic p, with_world m w, [EvOutdatedLedgers version; EvPanic p])
  end.

(** [is.Run()]: the worker updates the object behind [is] and the world *)
Definition run (p : ptr) : M unit := fun m =>
  match heap m !! p with
  | None => panic nil_dereference m
  | Some s =>
      match SessionRun s (world m) with
      | ((s', None), w) =>
          (Ret tt, {| sys := sys m; heap := <[p := s']> (heap m); world := w |},
           [EvRun p s])
      | ((s', Some pv), w) =>
          (Panic pv, {| sys := sys m; heap := <[p := s']> (heap m); world := w |},
           [EvRun p s; EvPanic pv])
      end
  end.

(** [log.Info], [log.Warn], [log.Errorf] *)
Definition log (l : log_entry) : M unit := emit (EvLog l).

(** [errors.ReportToSentry(err, nil)] *)
Definition ReportToSentry (e : error) : M unit := emit (EvSentry e).

(** [errors.FromPanic(rec)] *)
Definition FromPanic (p : PanicValue) : error := ErrFromPanic p.
End Monad.

Arguments outcome_of {_ _} !r /.
Arguments final_of {_ _} !r /.
Arguments events_of {_ _} !r /.
Arguments prepend {_ _} ev !r /.

Declare Scope go_scope.
Delimit Scope go_scope with go.
Notation "x <- c ;; k" := (bind c (fun x => k))
  (at level 100, c at next level, right associativity) : go_scope.
Notation "c ;; k" := (bind c (fun _ => k))
  (at level 100, right associativity) : go_scope.
Local Open Scope go_scope.

(** ** The program *)

Section Program.
Context `{Collaborators}.

(** *** Reingestion *)

(** [func (i *System) ReingestRange(start, end int32) (int, error)] *)
Definition ReingestRange (start end_ : Z) : M (Z * option error) :=
  is_ <- alloc (NewSession start end_) ;;
  update is_ (set_ClearExisting true) ;;
  run is_ ;;
  s <- deref is_ ;;
  ret (Ingested s, Err s).

(** [func (i *System) ReingestAll() (int, error)] *)
Definition ReingestAll : M (Z * option error) :=
  ls <- currentState ;;
  ReingestRange (CoreElder ls) (CoreLatest ls).

(** [func (i *System) ReingestSingle(sequence int32) error] *)
Definition ReingestSingle (sequence : Z) : M (option error) :=
  r <- ReingestRange sequence sequence ;;
  ret (snd r).

(** The closure [flush] of [ReingestOutdated], with the three variables it
    captures ([start], [end], and the named result [n]) made explicit: it
    returns the new [n] and its own error result. *)
Definition flush (start end_ n : Z) : M (Z * option error) :=
  r <- ReingestRange start end_ ;;
  match snd r with
  | Some ferr => ret (n, Some ferr)
  | None => ret (Int.add n (fst r), None)
  end.

(** The loop [for idx := range outdated] of [ReingestOutdated], on the
    part of the slice still to visit.  [inl (start, end, n)]: the loop ran
    to its end with these values; [inr (n, err)]: a flush failed and the
    function returned from inside the loop. *)
Fixpoint scan (outdated : list Z) (start end_ n : Z) : M (Z * Z * Z + Z * error) :=
  match outdated with
  | [] => ret (inl (start, end_, n))
  | seq :: rest =>
      if start =? 0 then scan rest seq seq n
      else if seq =? Int32.add end_ 1 then scan rest start seq n
      else
        r <- flush start end_ n ;;
        match snd r with
        | Some err => ret (inr (fst r, err))
        | None => scan rest seq seq (fst r)
        end
  end.

(** What follows the inner loop: nothing if the function has returned from
    inside it, else the flush of the last run. *)
Definition last_flush (r : Z * Z * Z + Z * error) : M (Z * option error) :=
  match r with
  | inr (n', err) => ret (n', Some err)
  | inl (start, end_, n') => flush start end_ n'
  end.

(** One turn of the outer loop of [ReingestOutdated] once the query has
    returned a non-empty slice: the log line, the scan with [start] and
    [end] declared afresh (zero), and the last flush. *)
Definition drain (outdated : list Z) (n : Z) : M (Z * option error) :=
  log (LogReingestOutdated (List.hd 0 outdated) (length outdated)) ;;
  r <- scan outdated 0 0 n ;;
  last_flush r.

(** The outer [for] loop of [ReingestOutdated], from the value [n] of the
    named result; [fuel] bounds the number of turns of the model. *)
Fixpoint ReingestOutdated_from (fuel : nat) (n : Z) : M (Z * option error) :=
  match fuel with
  | O => halt OutOfFuel
  | S fuel' =>
      q <- oldestOutdatedLedgers CurrentVersion ;;
      match q with
      | inr err => ret (n, Some err)
      | inl outdated =>
          if (length outdated =? 0)%nat then ret (n, None)
          else
            r <- drain outdated n ;;
            match snd r with
            | Some err => ret (fst r, Some err)
            | None => ReingestOutdated_from fuel' (fst r)
            end
      end
  end.

(** [func (i *System) ReingestOutdated() (n int, err error)] *)
Definition ReingestOutdated (fuel : nat) : M (Z * option error) :=
  ReingestOutdated_from fuel 0.

(** *** Chain validation *)

(** [func (i *System) validateLedgerChain(seq int32) error] *)
Definition validateLedgerChain (seq : Z) : M (option error) :=
  c <- ledgerHeaderBySequence seq ;;
  match c with
  | inr err =>
      ret (Some (ErrWrap err "validateLedgerChain: failed to load cur ledger"))
  | inl cur =>
      p <- ledgerHeaderBySequence (Int32.sub seq 1) ;;
      match p with
      | inr err =>
          ret (Some (ErrWrap err "validateLedgerChain: failed to load prev ledger"))
      | inl prev =>
          if negb (String.eqb (PrevHash cur) (LedgerHash prev))
          then ret (Some (ErrNew "cur and prev ledger hashes don't match"))
          else ret None
      end
  end.

(** *** The tick *)

(** [func (i *System) newTickSession() *Session] *)
Definition newTickSession : M ptr :=
  ls <- currentState ;;
  let start :=
    if HistoryLatest ls =? 0 then CoreElder ls
    else Int32.add (HistoryLatest ls) 1 in
  let end_ := CoreLatest ls in
  alloc (NewSession start end_).

(** The first deferred function of [runOnce]. *)
Definition report_panic (rec : option PanicValue) : M unit :=
  match rec with
  | Some p =>
      let err := FromPanic p in
      log (LogSessionPanicked err) ;;
      ReportToSentry err
  | None => ret tt
  end.

(** The second deferred function of [runOnce]. *)
Definition release : M unit :=
  Lock ;;
  set_current None ;;
  Unlock.

(** Step 3 of [runOnce]: [is.Run()] and the report of its error. *)
Definition runOnce_import (p : ptr) : M unit :=
  run p ;;
  s' <- deref p ;;
  match Err s' with
  | Some e => log (LogSessionFailed e)
  | None => ret tt
  end.

(** [runOnce] from [if is == nil] to its end. *)
Definition runOnce_body (ls : LedgerState) (is_ : option ptr) : M unit :=
  match is_ with
  | None => log LogNilCurrentSession
  | Some p =>
      s <- deref p ;;
      if FirstLedger (SessionCursor s) >? LastLedger (SessionCursor s) then ret tt
      else
        (if HistoryLatest ls =? 0
         then log (LogHistoryEmpty (FirstLedger (SessionCursor s)))
         else ret tt) ;;
        verr <- (if negb (FirstLedger (SessionCursor s) =? CoreElder ls)
                 then validateLedgerChain (FirstLedger (SessionCursor s))
                 else ret None) ;;
        match verr with
        | Some err => log (LogLedgerGap (FirstLedger (SessionCursor s)) err)
        | None => runOnce_import p
        end
  end.

(** [func (i *System) runOnce()] *)
Definition runOnce : M unit :=
  defer_recover report_panic
    (ls <- currentState ;;
     Lock ;;
     is_ <- get_current ;;
     Unlock ;;
     defer release (runOnce_body ls is_)).

(** [func (i *System) Tick() *Session] *)
Definition Tick : M (option ptr) :=
  Lock ;;
  cur <- get_current ;;
  match cur with
  | Some _ =>
      log LogAlreadyInProgress ;;
      Unlock ;;
      ret None
  | None =>
      is_ <- newTickSession ;;
      set_current (Some is_) ;;
      Unlock ;;
      runOnce ;;
      ret (Some is_)
  end.
End Program.

(** ** Properties of computations *)

Section Properties.
Context `{Collaborators}.

(** The events that write the [current] slot. *)
Definition slot_event (e : event) : bool :=
  match e with
  | EvInstall _ | EvRelease => true
  | _ => false
  end.

(** A computation that neither reads nor writes the [System] fields (run
    from any other value [y] of them it does the same and leaves [y] in
    place), and whose trace shows every panic it raises. *)
Record tame {A} (c : M A) : Prop := {
  tame_sys : forall m y,
    c (set_sys y m) = (outcome_of (c m), set_sys y (final_of (c m)), events_of (c m));
  tame_slot : forall m e, In e (events_of (c m)) -> slot_event e = false;
  tame_panic : forall m pv, In (EvPanic pv) (events_of (c m)) -> outcome_of (c m) = Panic pv
}.

(** A computation that always comes back, with a result or a panic. *)
Definition total {A} (c : M A) : Prop :=
  forall m r, outcome_of (c m) <> Halt r.
End Properties.

(** ** The states a tick goes through *)

Section TickStates.
Context `{Collaborators}.

(** The [System] with the mutex free and no session running. *)
Definition idle_sys : System := {| lock := false; current := None |}.

(** The [System] with the mutex free and session [p] running. *)
Definition busy_sys (p : ptr) : System := {| lock := false; current := Some p |}.

(** What the first deferred function of [runOnce] emits for the outcome of
    the rest of the function. *)
Definition panic_report {A} (o : Outcome A) : list event :=
  match o with
  | Panic pv => [EvLog (LogSessionPanicked (ErrFromPanic pv)); EvSentry (ErrFromPanic pv)]
  | _ => []
  end.

(** The session object [newTickSession] allocates for the snapshot [ls]. *)
Definition tick_session (ls : LedgerState) : Session :=
  NewSession
    (if HistoryLatest ls =? 0 then CoreElder ls else Int32.add (HistoryLatest ls) 1)
    (CoreLatest ls).

(** The machine in which the body of [runOnce] starts during a tick from
    [m]: the new session is on the heap and installed, the mutex is free
    again, and the world is the one left by the two reads of the ledger
    state. *)
Definition ticking (m : Machine) (ls : LedgerState) (w : World) : Machine :=
  {| sys := busy_sys (length (heap m));
     heap := heap m ++ [tick_session ls];
     world := w |}.

(** The log line of step 2 of [runOnce]. *)
Definition history_empty_log (ls : LedgerState) (first : Z) : list event :=
  if HistoryLatest ls =? 0 then [EvLog (LogHistoryEmpty first)] else [].

(** The four ways through the body of [runOnce] for the session [s] found
    at [p], and the result [r] of each: the range is empty; the validator
    reports a gap; the validator panics; the session is run. *)
Inductive body_shape (ls : LedgerState) (p : ptr) (m : Machine) (s : Session)
    (r : Result unit) : Prop :=
  | shape_empty :
      FirstLedger (SessionCursor s) > LastLedger (SessionCursor s) ->
      r = (Ret tt, m, []) ->
      body_shape ls p m s r
  | shape_gap err w evv :
      FirstLedger (SessionCursor s) <= LastLedger (SessionCursor s) ->
      FirstLedger (SessionCursor s) <> CoreElder ls ->
      validateLedgerChain (FirstLedger (SessionCursor s)) m =
        (Ret (Some err), with_world m w, evv) ->
      r = (Ret tt, with_world m w,
           history_empty_log ls (FirstLedger (SessionCursor s)) ++ evv ++
           [EvLog (LogLedgerGap (FirstLedger (SessionCursor s)) err)]) ->
      body_shape ls p m s r
  | shape_validator_panic pv w evv :
      FirstLedger (SessionCursor s) <= LastLedger (SessionCursor s) ->
      FirstLedger (SessionCursor s) <> CoreElder ls ->
      validateLedgerChain (FirstLedger (SessionCursor s)) m =
        (Panic pv, with_world m w, evv) ->
      r = (Panic pv, with_world m w,
           history_empty_log ls (FirstLedger (SessionCursor s)) ++ evv) ->
      body_shape ls p m s r
  | shape_run w evv :
      FirstLedger (SessionCursor s) <= LastLedger (SessionCursor s) ->
      (FirstLedger (SessionCursor s) = CoreElder ls /\ w = world m /\ evv = []) \/
      (FirstLedger (SessionCursor s) <> CoreElder ls /\
       validateLedgerChain (FirstLedger (SessionCursor s)) m =
         (Ret None, with_world m w, evv)) ->
      r = prepend (history_empty_log ls (FirstLedger (SessionCursor s)) ++ evv)
            (runOnce_import p (with_world m w)) ->
      body_shape ls p m s r.
End TickStates.

(** ** RangeCoalescer, as the specification words it *)

(** Section 4.3: scan once, left to right, accumulating a run
    [[start, end]]; extend the run while the next value equals [end + 1];
    otherwise flush the run and begin a new one; flush the final run
    unconditionally. *)
Fixpoint coalesce_from (start end_ : Z) (l : list Z) : list (Z * Z) :=
  match l with
  | [] => [(start, end_)]
  | x :: l' =>
      if x =? end_ + 1 then coalesce_from start x l'
      else (start, end_) :: coalesce_from x x l'
  end.

Definition RangeCoalescer (l : list Z) : list (Z * Z) :=
  match l with
  | [] => []
  | x :: l' => coalesce_from x x l'
  end.

(** An ascending, deduplicated sequence. *)
Definition ascending (l : list Z) : Prop := StronglySorted Z.lt l.

(** [x] lies in one of the runs. *)
Definition covers (rs : list (Z * Z)) (x : Z) : Prop :=
  exists r, In r rs /\ fst r <= x <= snd r.

(** Runs in ascending order, none empty, with a gap between each and the
    next: no two of them can be merged, none can be extended. *)
Inductive separated : list (Z * Z) -> Prop :=
  | separated_nil : separated []
  | separated_one s e : s <= e -> separated [(s, e)]
  | separated_cons s e s' e' rs :
      s <= e -> e + 1 < s' -> separated ((s', e') :: rs) ->
      separated ((s, e) :: (s', e') :: rs).

(** [rs] is the list of maximal contiguous runs of [l]: separated runs whose
    union is the set of the elements of [l]. *)
Definition maximal_runs (l : list Z) (rs : list (Z * Z)) : Prop :=
  separated rs /\ forall x, In x l <-> covers rs x.

(** [rs] is any list of non-empty runs whose union is the set of the
    elements of [l]. *)
Definition run_cover (l : list Z) (rs : list (Z * Z)) : Prop :=
  Forall (fun r => fst r <= snd r) rs /\ forall x, In x l <-> covers rs x.

(** The ranges of the sessions run in a trace, in order. *)
Definition ranges_run (evs : list event) : list (Z * Z) :=
  flat_map
    (fun e =>
       match e with
       | EvRun _ s => [(FirstLedger (SessionCursor s), LastLedger (SessionCursor s))]
       | _ => []
       end)
    evs.

Section Flushes.
Context `{Collaborators}.

(** [ReingestRange] called on each run of [rs] in turn, as [flush] does it:
    the count [n] grows with each success, and the first failure ends the
    series. *)
Fixpoint flushes (rs : list (Z * Z)) (n : Z) : M (Z * option error) :=
  match rs with
  | [] => ret (n, None)
  | r :: rs' =>
      f <- flush (fst r) (snd r) n ;;
      match snd f with
      | Some err => ret (fst f, Some err)
      | None => flushes rs' (fst f)
      end
  end.

End Flushes.

(** ** Concurrent ticks *)

(** Several goroutines call [Tick] on one [System].  Only the mutex and the
    [current] slot are shared, so a goroutine is followed from one access to
    them to the next; everything in between (reading the ledger state,
    logging, validating, [is.Run()], recovering from a panic) is local to
    the goroutine and folded into the neighbouring step.  A program point is
    named after the line of [system.go] the goroutine executes next, and
    carries the local variables that are live there. *)
Inductive pc : Type :=
  | Away                              (* outside [Tick] *)
  | L99                               (* [i.lock.Lock()] *)
  | L100                              (* [if i.current != nil] *)
  | L102                              (* [i.lock.Unlock(); return nil] *)
  | L106                              (* [is := i.newTickSession()] *)
  | L107 (is_ : ptr)                  (* [i.current = is] *)
  | L108 (is_ : ptr)                  (* [i.lock.Unlock()] *)
  | L151 (is_ : ptr)                  (* [runOnce]: [i.lock.Lock()] *)
  | L152 (is_ : ptr)                  (* [is := i.current] *)
  | L153 (is_ : ptr) (cur : option ptr) (* [i.lock.Unlock()] *)
  | L161 (is_ : ptr) (cur : option ptr) (* the rest of [runOnce], up to its return or panic *)
  | L156 (is_ : ptr)                  (* deferred: [i.lock.Lock()] *)
  | L157 (is_ : ptr)                  (* deferred: [i.current = nil] *)
  | L158 (is_ : ptr).                 (* deferred: [i.lock.Unlock()]; [return is] *)

(** The shared [System], the next fresh session pointer, and the program
    point of every goroutine. *)
Record Conc : Type := mkConc {
  c_lock : bool;
  c_current : option ptr;
  c_next : ptr;
  c_pcs : list pc
}.

(** One step of goroutine [t]; [None] when it cannot move (it waits for the
    mutex, or there is no such goroutine). *)
Definition thread_step (t : nat) (st : Conc) : option Conc :=
  let goto lock' current' next' l :=
    Some (mkConc lock' current' next' (<[t := l]> (c_pcs st))) in
  match c_pcs st !! t with
  | None => None
  | Some Away => goto (c_lock st) (c_current st) (c_next st) L99
  | Some L99 =>
      if c_lock st then None
      else goto true (c_current st) (c_next st) L100
  | Some L100 =>
      goto (c_lock st) (c_current st) (c_next st)
           (match c_current st with Some _ => L102 | None => L106 end)
  | Some L102 => goto false (c_current st) (c_next st) Away
  | Some L106 => goto (c_lock st) (c_current st) (S (c_next st)) (L107 (c_next st))
  | Some (L107 is_) => goto (c_lock st) (Some is_) (c_next st) (L108 is_)
  | Some (L108 is_) => goto false (c_current st) (c_next st) (L151 is_)
  | Some (L151 is_) =>
      if c_lock st then None
      else goto true (c_current st) (c_next st) (L152 is_)
  | Some (L152 is_) => goto (c_lock st) (c_current st) (c_next st) (L153 is_ (c_current st))
  | Some (L153 is_ cur) => goto false (c_current st) (c_next st) (L161 is_ cur)
  | Some (L161 is_ cur) => goto (c_lock st) (c_current st) (c_next st) (L156 is_)
  | Some (L156 is_) =>
      if c_lock st then None
      else goto true (c_current st) (c_next st) (L157 is_)
  | Some (L157 is_) => goto (c_lock st) None (c_next st) (L158 is_)
  | Some (L158 is_) => goto false (c_current st) (c_next st) Away
  end.

(** [n] goroutines about to call [Tick] on a fresh [System]. *)
Definition conc_init (n : nat) : Conc :=
  mkConc false None 0%nat (replicate n Away).

(** The states some interleaving of the goroutines leads to. *)
Inductive reachable (n : nat) : Conc -> Prop :=
  | reachable_init : reachable n (conc_init n)
  | reachable_step st t st' :
      reachable n st -> thread_step t st = Some st' -> reachable n st'.

(** The state after the goroutines have moved in the order [sched]; a
    goroutine that cannot move when its turn comes is skipped. *)
Fixpoint run_schedule (sched : list nat) (st : Conc) : Conc :=
  match sched with
  | [] => st
  | t :: sched' =>
      match thread_step t st with
      | Some st' => run_schedule sched' st'
      | None => run_schedule sched' st
      end
  end.

(** The program points inside a critical section. *)
Definition holds_lock (l : pc) : bool :=
  match l with
  | L100 | L102 | L106 | L107 _ | L108 _ | L152 _ | L153 _ _ | L157 _ | L158 _ => true
  | _ => false
  end.

(** The program points between the installation of the goroutine's session
    ([i.current = is] done) and its release ([i.current = nil] not yet
    done). *)
Definition owns_slot (l : pc) : option ptr :=
  match l with
  | L108 p | L151 p | L152 p | L153 p _ | L161 p _ | L156 p | L157 p => Some p
  | _ => None
  end.

(** The program points between the check that found the slot empty and the
    installation. *)
Definition found_free (l : pc) : bool :=
  match l with
  | L106 | L107 _ => true
  | _ => false
  end.

(** The invariant of the interleavings. *)
Record conc_inv (st : Conc) : Prop := {
  inv_holder : forall t1 t2 l1 l2,
    c_pcs st !! t1 = Some l1 -> c_pcs st !! t2 = Some l2 ->
    holds_lock l1 = true -> holds_lock l2 = true -> t1 = t2;
  inv_unlocked : forall t l,
    c_lock st = false -> c_pcs st !! t = Some l -> holds_lock l = false;
  inv_owner : forall t1 t2 l1 l2 p1 p2,
    c_pcs st !! t1 = Some l1 -> c_pcs st !! t2 = Some l2 ->
    owns_slot l1 = Some p1 -> owns_slot l2 = Some p2 -> t1 = t2;
  inv_current : forall t l p,
    c_pcs st !! t = Some l -> owns_slot l = Some p -> c_current st = Some p;
  inv_found_free : forall t l,
    c_pcs st !! t = Some l -> found_free l = true -> c_current st = None
}.

(** ** A concrete world *)

(** Collaborators simple enough to run: a store with the cached ledger
    state, the headers of the core database, the outdated ledgers of the
    history database, and a session worker in one of four moods. *)
Module Scenario.

Inductive worker : Type :=
  | Healthy    (* ingests the whole range *)
  | Failing    (* ingests nothing and reports an error *)
  | Panicking  (* panics before touching anything *)
  | Lazy.      (* returns at once, nothing ingested, no error *)

Record store : Type := mkStore {
  st_ledger : LedgerState;
  st_headers : list LedgerHeader;
  st_outdated : list Z;
  st_worker : worker
}.

Definition no_rows : error := ErrExternal "sql: no rows in result set".

Definition lookup_header (seq : Z) (w : store) : reply LedgerHeader :=
  match List.find (fun h => Sequence h =? seq) (st_headers w) with
  | Some h => Ok h
  | None => Fail no_rows
  end.

Definition in_session (s : Session) (x : Z) : bool :=
  (FirstLedger (SessionCursor s) <=? x) && (x <=? LastLedger (SessionCursor s)).

Definition work (s : Session) (w : store) : (Session * option PanicValue) * store :=
  match st_worker w with
  | Healthy =>
      (({| SessionCursor := SessionCursor s;
           ClearExisting := ClearExisting s;
           Ingested := LastLedger (SessionCursor s) - FirstLedger (SessionCursor s) + 1;
           Err := None |}, None),
       {| st_ledger :=
            {| CoreElder := CoreElder (st_ledger w);
               CoreLatest := CoreLatest (st_ledger w);
               HistoryLatest :=
                 Z.max (HistoryLatest (st_ledger w)) (LastLedger (SessionCursor s)) |};
          st_headers := st_headers w;
          st_outdated := List.filter (fun x => negb (in_session s x)) (st_outdated w);
          st_worker := Healthy |})
  | Failing =>
      (({| SessionCursor := SessionCursor s;
           ClearExisting := ClearExisting s;
           Ingested := 0;
           Err := Some (ErrExternal "ingest failed") |}, None), w)
  | Panicking => ((s, Some (PanicMsg "index out of range")), w)
  | Lazy => ((s, None), w)
  end.

Definition env : Collaborators :=
  {| World := store;
     CurrentState := fun w => (st_ledger w, w);
     LedgerHeaderBySequence := fun seq w => (lookup_header seq w, w);
     OldestOutdatedLedgers := fun _ w => (Ok (st_outdated w), w);
     SessionRun := work;
     CurrentVersion := 8 |}.

(** A machine with the scheduler idle and nothing on the heap. *)
Definition idle (w : store) : @Machine env :=
  @mkMachine env {| lock := false; current := None |} [] w.

(** A machine in which session [0] is being run by somebody else. *)
Definition busy (w : store) : @Machine env :=
  @mkMachine env {| lock := false; current := Some 0%nat |} [NewSession 1 100] w.

(** Core holds ledgers 1 to 100, history is empty. *)
Definition fresh (k : worker) : store :=
  {| st_ledger := {| CoreElder := 1; CoreLatest := 100; HistoryLatest := 0 |};
     st_headers := [];
     st_outdated := [];
     st_worker := k |}.

(** History has caught up with core: nothing new to ingest. *)
Definition caught_up : store :=
  {| st_ledger := {| CoreElder := 1; CoreLatest := 100; HistoryLatest := 100 |};
     st_headers := [];
     st_outdated := [];
     st_worker := Healthy |}.

(** Core has moved on to 105; the headers of 100 and 101 are those given. *)
Definition behind (headers : list LedgerHeader) (k : worker) : store :=
  {| st_ledger := {| CoreElder := 1; CoreLatest := 105; HistoryLatest := 100 |};
     st_headers := headers;
     st_outdated := [];
     st_worker := k |}.

Definition linked : list LedgerHeader :=
  [ {| Sequence := 100; LedgerHash := "aa"; PrevHash := "99" |};
    {| Sequence := 101; LedgerHash := "bb"; PrevHash := "aa" |} ].

Definition broken : list LedgerHeader :=
  [ {| Sequence := 100; LedgerHash := "aa"; PrevHash := "99" |};
    {| Sequence := 101; LedgerHash := "bb"; PrevHash := "zz" |} ].

(** History holds the given outdated ledgers. *)
Definition stale (outdated : list Z) : store :=
  {| st_ledger := {| CoreElder := 1; CoreLatest := 100; HistoryLatest := 100 |};
     st_headers := [];
     st_outdated := outdated;
     st_worker := Healthy |}.

End Scenario.

(** ** The ranges of one turn, as the code computes them *)

(** The arguments the inner loop of [ReingestOutdated] (lines 51 to 72) and
    the flush after it (line 74) hand to [ReingestRange], in order, when no
    flush fails: the same three branches as [scan], on [start] and [end]
    alone. *)
Fixpoint code_runs_from (start end_ : Z) (outdated : list Z) : list (Z * Z) :=
  match outdated with
  | [] => [(start, end_)]
  | seq :: rest =>
      if start =? 0 then code_runs_from seq seq rest
      else if seq =? Int32.add end_ 1 then code_runs_from start seq rest
      else (start, end_) :: code_runs_from seq seq rest
  end.

(** With [start] and [end] declared afresh, as at line 40. *)
Definition code_runs (outdated : list Z) : list (Z * Z) :=
  code_runs_from 0 0 outdated.

(** [n += ingested] over the sessions of [ss], in order. *)
Definition sum_ingested (n : Z) (ss : list Session) : Z :=
  fold_left (fun acc s => Int.add acc (Ingested s)) ss n.

(** The number of sessions run in a trace. *)
Definition runs_in (evs : list event) : nat :=
  length (ranges_run evs).

(** The events by which a tick reaches the stores. *)
Definition store_event (e : event) : bool :=
  match e with
  | EvHeaderBySequence _ | EvRun _ _ => true
  | _ => false
  end.

(** ** More on concurrent ticks *)




(** ** More concrete worlds *)

(** History holds outdated ledgers and the worker does nothing about
    them. *)
Definition stuck_store : Scenario.store :=
  {| Scenario.st_ledger := {| CoreElder := 1; CoreLatest := 100; HistoryLatest := 100 |};
     Scenario.st_headers := [];
     Scenario.st_outdated := [3; 4; 5];
     Scenario.st_worker := Scenario.Lazy |}.

(** History holds outdated ledgers and the worker fails on every range. *)
Definition failing_store (outdated : list Z) : Scenario.store :=
  {| Scenario.st_ledger := {| CoreElder := 1; CoreLatest := 100; HistoryLatest := 100 |};
     Scenario.st_headers := [];
     Scenario.st_outdated := outdated;
     Scenario.st_worker := Scenario.Failing |}.

(** History holds outdated ledgers and the worker panics. *)
Definition panicking_store (outdated : list Z) : Scenario.store :=
  {| Scenario.st_ledger := {| CoreElder := 1; CoreLatest := 100; HistoryLatest := 100 |};
     Scenario.st_headers := [];
     Scenario.st_outdated := outdated;
     Scenario.st_worker := Scenario.Panicking |}.

(** * Facts *)

(** ** Machine integers *)

Module Int32Facts.
Import Int32.

Lemma wrap_in_range z : in_range (wrap z).
Proof.
  unfold in_range, wrap, min_signed, max_signed, modulus.
  pose proof (Z.mod_pos_bound (z - - 2 ^ 31) (2 ^ 32) ltac:(lia)). lia.
Qed.

Lemma wrap_small z : in_range z -> wrap z = z.
Proof.
  unfold in_range, wrap, min_signed, max_signed, modulus. intros Hz.
  rewrite Z.mod_small by lia. lia.
Qed.

Lemma add_small a b : in_range (a + b) -> add a b = a + b.
Proof. apply wrap_small. Qed.

Lemma sub_small a b : in_range (a - b) -> sub a b = a - b.
Proof. apply wrap_small. Qed.

Lemma succ_no_overflow a : in_range a -> a < max_signed -> add a 1 = a + 1.
Proof.
  unfold in_range. intros Ha Hlt. apply add_small. unfold in_range. lia.
Qed.

Lemma succ_overflow : add max_signed 1 = min_signed.
Proof. reflexivity. Qed.

Lemma pred_ne a : in_range a -> sub a 1 <> a.
Proof.
  unfold in_range, min_signed, max_signed. intros Ha.
  destruct (Z.eq_dec a (- 2 ^ 31)) as [->|Hne]; [discriminate|].
  rewrite sub_small by (unfold in_range, min_signed, max_signed; lia). lia.
Qed.
End Int32Facts.

Module IntFacts.
Import Int.

Lemma int_add_small a b : in_range (a + b) -> add a b = a + b.
Proof.
  unfold in_range, add, wrap, min_signed, max_signed, modulus. intros Hz.
  rewrite Z.mod_small by lia. lia.
Qed.
End IntFacts.

(** ** The monad *)

Section MonadFacts.
Context `{Collaborators}.

Lemma set_sys_id (m : Machine) : set_sys (sys m) m = m.
Proof. destruct m; reflexivity. Qed.

Lemma set_sys_set_sys y y' (m : Machine) : set_sys y (set_sys y' m) = set_sys y m.
Proof. reflexivity. Qed.

Lemma result_eta {A} (r : Result A) : r = (outcome_of r, final_of r, events_of r).
Proof. destruct r as [[o m] ev]; reflexivity. Qed.

Lemma prepend_nil {A} (r : Result A) : prepend [] r = r.
Proof. destruct r as [[o m] ev]; reflexivity. Qed.

Lemma prepend_prepend {A} ev1 ev2 (r : Result A) :
  prepend ev1 (prepend ev2 r) = prepend (ev1 ++ ev2) r.
Proof. destruct r as [[o m] ev]; simpl. by rewrite app_assoc. Qed.

Lemma outcome_prepend {A} ev (r : Result A) : outcome_of (prepend ev r) = outcome_of r.
Proof. destruct r as [[o m] ev']; reflexivity. Qed.

Lemma final_prepend {A} ev (r : Result A) : final_of (prepend ev r) = final_of r.
Proof. destruct r as [[o m] ev']; reflexivity. Qed.

Lemma events_prepend {A} ev (r : Result A) : events_of (prepend ev r) = ev ++ events_of r.
Proof. destruct r as [[o m] ev']; reflexivity. Qed.

(** Stepping through a [bind] whose first part is known. *)
Lemma bind_Ret {A B} (c : M A) (k : A -> M B) m a m1 ev1 :
  c m = (Ret a, m1, ev1) -> bind c k m = prepend ev1 (k a m1).
Proof. intros E. unfold bind. by rewrite E. Qed.

Lemma bind_Panic {A B} (c : M A) (k : A -> M B) m p m1 ev1 :
  c m = (Panic p, m1, ev1) -> bind c k m = (Panic p, m1, ev1).
Proof. intros E. unfold bind. by rewrite E. Qed.

Lemma bind_Halt {A B} (c : M A) (k : A -> M B) m r m1 ev1 :
  c m = (Halt r, m1, ev1) -> bind c k m = (Halt r, m1, ev1).
Proof. intros E. unfold bind. by rewrite E. Qed.

Lemma bind_assoc {A B C} (c : M A) (k : A -> M B) (k' : B -> M C) m :
  bind (bind c k) k' m = bind c (fun a => bind (k a) k') m.
Proof.
  unfold bind. destruct (c m) as [[[a|p|r] m1] ev1]; simpl; try reflexivity.
  destruct (k a m1) as [[[b|p|r] m2] ev2]; simpl; try reflexivity.
  by rewrite prepend_prepend.
Qed.

Lemma tame_final_sys {A} (c : M A) m : tame c -> sys (final_of (c m)) = sys m.
Proof.
  intros [Hs _ _]. specialize (Hs m (sys m)). rewrite set_sys_id in Hs.
  rewrite (result_eta (c m)) in Hs at 1. inversion Hs as [Hm].
  rewrite Hm. reflexivity.
Qed.

Lemma tame_ret {A} (a : A) : tame (ret a).
Proof. split; intros; simpl in *; tauto. Qed.

Lemma total_ret {A} (a : A) : total (ret a).
Proof. intros m r. discriminate. Qed.

Lemma tame_bind {A B} (c : M A) (k : A -> M B) :
  tame c -> (forall a, tame (k a)) -> tame (bind c k).
Proof.
  intros Hc Hk. split.
  - intros m y. unfold bind. rewrite (tame_sys c Hc).
    destruct (c m) as [[[a|p|r] m1] ev1]; simpl; try reflexivity.
    rewrite (tame_sys (k a) (Hk a)).
    by destruct (k a m1) as [[o m2] ev2].
  - intros m e. unfold bind.
    pose proof (tame_slot c Hc m e) as Hs.
    destruct (c m) as [[[a|p|r] m1] ev1]; simpl in *; try assumption.
    rewrite events_prepend, in_app_iff. intros [Hin|Hin]; [by apply Hs|].
    by apply (tame_slot (k a) (Hk a) m1).
  - intros m pv. unfold bind.
    pose proof (tame_panic c Hc m pv) as Hp.
    destruct (c m) as [[[a|p|r] m1] ev1]; simpl in *.
    + rewrite events_prepend, outcome_prepend, in_app_iff.
      intros [Hin|Hin]; [by specialize (Hp Hin)|].
      by apply (tame_panic (k a) (Hk a) m1).
    + intros Hin. specialize (Hp Hin). by inversion Hp.
    + intros Hin. by specialize (Hp Hin).
Qed.

Lemma total_bind {A B} (c : M A) (k : A -> M B) :
  total c -> (forall a, total (k a)) -> total (bind c k).
Proof.
  intros Hc Hk m r. unfold bind. specialize (Hc m).
  destruct (c m) as [[[a|p|r'] m1] ev1]; simpl in *; try discriminate.
  - rewrite outcome_prepend. apply Hk.
  - by specialize (Hc r').
Qed.

Lemma tame_emit e : slot_event e = false -> (forall pv, e <> EvPanic pv) -> tame (emit e).
Proof.
  intros Hs Hp. split; intros; simpl in *; try reflexivity.
  - destruct H0 as [<-|[]]. assumption.
  - destruct H0 as [->|[]]. by destruct (Hp pv).
Qed.

Lemma tame_log l : tame (log l).
Proof. by apply tame_emit. Qed.

Lemma total_log l : total (log l).
Proof. intros m r. discriminate. Qed.

Lemma tame_panic_raise {A} p : tame (@panic _ A p).
Proof.
  split; intros; simpl in *; try reflexivity.
  - by destruct H0 as [<-|[]].
  - destruct H0 as [[= ->]|[]]. reflexivity.
Qed.

Lemma tame_alloc s : tame (alloc s).
Proof. split; intros; simpl in *; try reflexivity; tauto. Qed.

Lemma total_alloc s : total (alloc s).
Proof. intros m r. discriminate. Qed.

Lemma tame_deref p : tame (deref p).
Proof.
  split; intros m; unfold deref; simpl.
  - intros y. destruct (heap m !! p); reflexivity.
  - intros e. destruct (heap m !! p); simpl; [tauto|]. by intros [<-|[]].
  - intros pv. destruct (heap m !! p); simpl; [tauto|]. by intros [[= ->]|[]].
Qed.

Lemma total_deref p : total (deref p).
Proof. intros m r. unfold deref. destruct (heap m !! p); discriminate. Qed.

Lemma tame_update p f : tame (update p f).
Proof.
  split; intros m; unfold update; simpl.
  - intros y. destruct (heap m !! p); reflexivity.
  - intros e. destruct (heap m !! p); simpl; [tauto|]. by intros [<-|[]].
  - intros pv. destruct (heap m !! p); simpl; [tauto|]. by intros [[= ->]|[]].
Qed.

Lemma total_update p f : total (update p f).
Proof. intros m r. unfold update. destruct (heap m !! p); discriminate. Qed.

Lemma tame_run p : tame (run p).
Proof.
  split; intros m; unfold run; simpl.
  - intros y. destruct (heap m !! p); [|reflexivity].
    by destruct (SessionRun s (world m)) as [[s' [pv|]] w].
  - intros e. destruct (heap m !! p); simpl; [|by intros [<-|[]]].
    destruct (SessionRun s (world m)) as [[s' [pv|]] w]; simpl.
    + by intros [<-|[<-|[]]].
    + by intros [<-|[]].
  - intros pv. destruct (heap m !! p); simpl; [|by intros [[= ->]|[]]].
    destruct (SessionRun s (world m)) as [[s' [pv'|]] w]; simpl.
    + by intros [|[[= ->]|[]]].
    + by intros [|[]].
Qed.

Lemma total_run p : total (run p).
Proof.
  intros m r. unfold run. destruct (heap m !! p); [|discriminate].
  destruct (SessionRun s (world m)) as [[s' [pv|]] w]; discriminate.
Qed.

Lemma tame_currentState : tame currentState.
Proof.
  split; intros m; unfold currentState; simpl.
  - intros y. by destruct (CurrentState (world m)).
  - intros e. destruct (CurrentState (world m)); simpl. by intros [<-|[]].
  - intros pv. destruct (CurrentState (world m)); simpl. by intros [|[]].
Qed.

Lemma total_currentState : total currentState.
Proof.
  intros m r. unfold currentState. by destruct (CurrentState (world m)).
Qed.

Lemma tame_ledgerHeaderBySequence seq : tame (ledgerHeaderBySequence seq).
Proof.
  split; intros m; unfold ledgerHeaderBySequence; simpl.
  - intros y. by destruct (LedgerHeaderBySequence seq (world m)) as [[h|e|p] w].
  - intros e. destruct (LedgerHeaderBySequence seq (world m)) as [[h|e'|p] w]; simpl.
    + by intros [<-|[]].
    + by intros [<-|[]].
    + by intros [<-|[<-|[]]].
  - intros pv. destruct (LedgerHeaderBySequence seq (world m)) as [[h|e'|p] w]; simpl.
    + by intros [|[]].
    + by intros [|[]].
    + by intros [|[[= ->]|[]]].
Qed.

Lemma total_ledgerHeaderBySequence seq : total (ledgerHeaderBySequence seq).
Proof.
  intros m r. unfold ledgerHeaderBySequence.
  by destruct (LedgerHeaderBySequence seq (world m)) as [[h|e|p] w].
Qed.

Lemma tame_oldestOutdatedLedgers v : tame (oldestOutdatedLedgers v).
Proof.
  split; intros m; unfold oldestOutdatedLedgers; simpl.
  - intros y. by destruct (OldestOutdatedLedgers v (world m)) as [[h|e|p] w].
  - intros e. destruct (OldestOutdatedLedgers v (world m)) as [[h|e'|p] w]; simpl.
    + by intros [<-|[]].
    + by intros [<-|[]].
    + by intros [<-|[<-|[]]].
  - intros pv. destruct (OldestOutdatedLedgers v (world m)) as [[h|e'|p] w]; simpl.
    + by intros [|[]].
    + by intros [|[]].
    + by intros [|[[= ->]|[]]].
Qed.
End MonadFacts.

Create HintDb tame discriminated.
#[export] Hint Resolve tame_ret tame_bind tame_log tame_panic_raise tame_alloc
  tame_deref tame_update tame_run tame_currentState tame_ledgerHeaderBySequence
  tame_oldestOutdatedLedgers : tame.
#[export] Hint Resolve total_ret total_bind total_log total_alloc total_deref
  total_update total_run total_currentState total_ledgerHeaderBySequence : tame.

(** ** The functions of [system.go] are tame *)

Section ProgramFacts.
Context `{Collaborators}.

Ltac tame_auto :=
  repeat first
    [ progress (eauto with tame)
    | apply tame_bind; [|intros ?]
    | apply total_bind; [|intros ?]
    | match goal with
      | |- tame (match ?x with _ => _ end) => destruct x
      | |- total (match ?x with _ => _ end) => destruct x
      | |- tame (if ?b then _ else _) => destruct b
      | |- total (if ?b then _ else _) => destruct b
      end ].

Lemma tame_validateLedgerChain seq : tame (validateLedgerChain seq).
Proof. unfold validateLedgerChain. tame_auto. Qed.

Lemma total_validateLedgerChain seq : total (validateLedgerChain seq).
Proof. unfold validateLedgerChain. tame_auto. Qed.

Lemma tame_ReingestRange start end_ : tame (ReingestRange start end_).
Proof. unfold ReingestRange. tame_auto. Qed.

Lemma total_ReingestRange start end_ : total (ReingestRange start end_).
Proof. unfold ReingestRange. tame_auto. Qed.

Lemma tame_flush start end_ n : tame (flush start end_ n).
Proof. unfold flush. pose proof tame_ReingestRange. tame_auto. Qed.

Lemma total_flush start end_ n : total (flush start end_ n).
Proof. unfold flush. pose proof total_ReingestRange. tame_auto. Qed.

Lemma tame_scan outdated : forall start end_ n, tame (scan outdated start end_ n).
Proof.
  induction outdated as [|seq rest IH]; intros start end_ n; simpl.
  - tame_auto.
  - pose proof tame_flush. tame_auto.
Qed.

Lemma total_scan outdated : forall start end_ n, total (scan outdated start end_ n).
Proof.
  induction outdated as [|seq rest IH]; intros start end_ n; simpl.
  - tame_auto.
  - pose proof total_flush. tame_auto.
Qed.

Lemma tame_drain outdated n : tame (drain outdated n).
Proof.
  unfold drain, last_flush. pose proof tame_scan. pose proof tame_flush.
  tame_auto.
Qed.

Lemma total_drain outdated n : total (drain outdated n).
Proof.
  unfold drain, last_flush. pose proof total_scan. pose proof total_flush.
  tame_auto.
Qed.

Lemma tame_ReingestOutdated_from fuel : forall n, tame (ReingestOutdated_from fuel n).
Proof.
  induction fuel as [|fuel IH]; intros n; simpl.
  - split; intros; simpl in *; tauto.
  - pose proof tame_drain. tame_auto.
Qed.

Lemma tame_runOnce_import p : tame (runOnce_import p).
Proof. unfold runOnce_import. tame_auto. Qed.

Lemma total_runOnce_import p : total (runOnce_import p).
Proof. unfold runOnce_import. tame_auto. Qed.

Lemma tame_runOnce_body ls is_ : tame (runOnce_body ls is_).
Proof.
  unfold runOnce_body.
  pose proof tame_validateLedgerChain. pose proof tame_runOnce_import. tame_auto.
Qed.

Lemma total_runOnce_body ls is_ : total (runOnce_body ls is_).
Proof.
  unfold runOnce_body.
  pose proof total_validateLedgerChain. pose proof total_runOnce_import. tame_auto.
Qed.

(** *** Objects at the end of the heap *)

Lemma lookup_snoc (h : list Session) (x : Session) : (h ++ [x]) !! length h = Some x.
Proof. induction h as [|y h IH]; simpl; [reflexivity|exact IH]. Qed.

Lemma insert_snoc (h : list Session) (x y : Session) :
  <[length h := y]> (h ++ [x]) = h ++ [y].
Proof. induction h as [|z h IH]; simpl; [reflexivity|by rewrite IH]. Qed.

Lemma lookup_fresh (h : list Session) : h !! length h = None.
Proof. induction h as [|y h IH]; simpl; [reflexivity|exact IH]. Qed.

(** *** What each function computes *)

Lemma validateLedgerChain_cases (seq : Z) (m : Machine) :
  validateLedgerChain seq m =
    match LedgerHeaderBySequence seq (world m) with
    | (Fail e, w1) =>
        (Ret (Some (ErrWrap e "validateLedgerChain: failed to load cur ledger")),
         with_world m w1, [EvHeaderBySequence seq])
    | (Panics pv, w1) =>
        (Panic pv, with_world m w1, [EvHeaderBySequence seq; EvPanic pv])
    | (Ok cur, w1) =>
        match LedgerHeaderBySequence (Int32.sub seq 1) w1 with
        | (Fail e, w2) =>
            (Ret (Some (ErrWrap e "validateLedgerChain: failed to load prev ledger")),
             with_world m w2,
             [EvHeaderBySequence seq; EvHeaderBySequence (Int32.sub seq 1)])
        | (Panics pv, w2) =>
            (Panic pv, with_world m w2,
             [EvHeaderBySequence seq; EvHeaderBySequence (Int32.sub seq 1); EvPanic pv])
        | (Ok prev, w2) =>
            (Ret (if String.eqb (PrevHash cur) (LedgerHash prev) then None
                  else Some (ErrNew "cur and prev ledger hashes don't match")),
             with_world m w2,
             [EvHeaderBySequence seq; EvHeaderBySequence (Int32.sub seq 1)])
        end
    end.
Proof.
  unfold validateLedgerChain, bind, ledgerHeaderBySequence.
  destruct (LedgerHeaderBySequence seq (world m)) as [[cur|e|pv] w1]; simpl;
    try reflexivity.
  destruct (LedgerHeaderBySequence (Int32.sub seq 1) w1) as [[prev|e|pv] w2]; simpl;
    try reflexivity.
  by destruct (String.eqb (PrevHash cur) (LedgerHash prev)).
Qed.

(** The validator reads headers and nothing else: it leaves the heap and
    the [System] alone and runs no session. *)
Lemma validateLedgerChain_final (seq : Z) (m : Machine) :
  exists w, final_of (validateLedgerChain seq m) = with_world m w.
Proof.
  rewrite validateLedgerChain_cases.
  destruct (LedgerHeaderBySequence seq (world m)) as [[cur|e|pv] w1]; simpl; eauto.
  destruct (LedgerHeaderBySequence (Int32.sub seq 1) w1) as [[prev|e|pv] w2]; simpl; eauto.
Qed.

Lemma validateLedgerChain_events (seq : Z) (m : Machine) e :
  In e (events_of (validateLedgerChain seq m)) ->
  e = EvHeaderBySequence seq \/ e = EvHeaderBySequence (Int32.sub seq 1)
  \/ exists pv, e = EvPanic pv.
Proof.
  rewrite validateLedgerChain_cases.
  destruct (LedgerHeaderBySequence seq (world m)) as [[cur|e'|pv] w1]; simpl;
    [destruct (LedgerHeaderBySequence (Int32.sub seq 1) w1) as [[prev|e'|pv] w2]; simpl| |];
    intros Hin; repeat (destruct Hin as [<-|Hin]; [eauto 6|]); contradiction.
Qed.

Lemma validateLedgerChain_first_event (seq : Z) (m : Machine) :
  In (EvHeaderBySequence seq) (events_of (validateLedgerChain seq m)).
Proof.
  rewrite validateLedgerChain_cases.
  destruct (LedgerHeaderBySequence seq (world m)) as [[cur|e'|pv] w1]; simpl; auto.
  destruct (LedgerHeaderBySequence (Int32.sub seq 1) w1) as [[prev|e'|pv] w2]; simpl; auto.
Qed.

Lemma ReingestRange_eq (start end_ : Z) (m : Machine) :
  let s0 := set_ClearExisting true (NewSession start end_) in
  ReingestRange start end_ m =
    match SessionRun s0 (world m) with
    | ((s', None), w) =>
        (Ret (Ingested s', Err s'),
         {| sys := sys m; heap := heap m ++ [s']; world := w |},
         [EvRun (length (heap m)) s0])
    | ((s', Some pv), w) =>
        (Panic pv,
         {| sys := sys m; heap := heap m ++ [s']; world := w |},
         [EvRun (length (heap m)) s0; EvPanic pv])
    end.
Proof.
  intros s0. unfold ReingestRange, bind, alloc, update, run, deref. simpl.
  rewrite lookup_snoc. simpl. rewrite insert_snoc, lookup_snoc. simpl.
  fold s0.
  destruct (SessionRun s0 (world m)) as [[s' [pv|]] w]; simpl.
  - by rewrite insert_snoc.
  - by rewrite insert_snoc, lookup_snoc.
Qed.

Lemma runOnce_import_eq (p : ptr) (m : Machine) (s : Session) :
  heap m !! p = Some s ->
  runOnce_import p m =
    match SessionRun s (world m) with
    | ((s', None), w) =>
        (Ret tt, {| sys := sys m; heap := <[p := s']> (heap m); world := w |},
         EvRun p s ::
           match Err s' with
           | Some e => [EvLog (LogSessionFailed e)]
           | None => []
           end)
    | ((s', Some pv), w) =>
        (Panic pv, {| sys := sys m; heap := <[p := s']> (heap m); world := w |},
         [EvRun p s; EvPanic pv])
    end.
Proof.
  intros Hp. unfold runOnce_import, bind, run, deref. rewrite Hp.
  destruct (SessionRun s (world m)) as [[s' [pv|]] w]; simpl; [reflexivity|].
  rewrite list_lookup_insert_eq by (by eapply lookup_lt_Some). simpl.
  by destruct (Err s').
Qed.

Lemma runOnce_body_eq (ls : LedgerState) (p : ptr) (m : Machine) (s : Session) :
  heap m !! p = Some s ->
  let first := FirstLedger (SessionCursor s) in
  runOnce_body ls (Some p) m =
    if first >? LastLedger (SessionCursor s) then (Ret tt, m, [])
    else
      prepend (if HistoryLatest ls =? 0 then [EvLog (LogHistoryEmpty first)] else [])
        (if negb (first =? CoreElder ls)
         then
           match validateLedgerChain first m with
           | (Ret (Some err), m1, ev) => (Ret tt, m1, ev ++ [EvLog (LogLedgerGap first err)])
           | (Ret None, m1, ev) => prepend ev (runOnce_import p m1)
           | (Panic pv, m1, ev) => (Panic pv, m1, ev)
           | (Halt r, m1, ev) => (Halt r, m1, ev)
           end
         else runOnce_import p m).
Proof.
  intros Hp first. unfold runOnce_body, bind at 1, deref. rewrite Hp. fold first.
  destruct (first >? LastLedger (SessionCursor s)); [reflexivity|].
  unfold bind at 1.
  destruct (HistoryLatest ls =? 0); simpl.
  - destruct (negb (first =? CoreElder ls)); unfold bind; simpl.
    + destruct (validateLedgerChain first m) as [[[[err|]|pv|r] m1] ev]; simpl;
        try reflexivity.
      by destruct (runOnce_import p m1) as [[o m2] ev2].
    + by destruct (runOnce_import p m) as [[o m2] ev2].
  - destruct (negb (first =? CoreElder ls)); unfold bind; simpl.
    + destruct (validateLedgerChain first m) as [[[[err|]|pv|r] m1] ev]; simpl;
        try reflexivity.
      by destruct (runOnce_import p m1) as [[o m2] ev2].
    + by destruct (runOnce_import p m) as [[o m2] ev2].
Qed.
End ProgramFacts.

(** ** The tick *)

Section TickFacts.
Context `{Collaborators}.

Local Arguments runOnce_body : simpl never.
Local Arguments runOnce : simpl never.

Lemma Tick_busy (m : Machine) (p : ptr) :
  lock (sys m) = false -> current (sys m) = Some p ->
  Tick m = (Ret None, m, [EvLog LogAlreadyInProgress]).
Proof.
  intros Hl Hc. destruct m as [[l c] h w]; simpl in *; subst.
  reflexivity.
Qed.

Lemma release_free (m : Machine) :
  lock (sys m) = false -> release m = (Ret tt, set_sys idle_sys m, [EvRelease]).
Proof.
  intros Hl. destruct m as [[l c] h w]; simpl in *; subst. reflexivity.
Qed.

Lemma newTickSession_eq (m : Machine) ls w :
  CurrentState (world m) = (ls, w) ->
  newTickSession m =
    (Ret (length (heap m)),
     {| sys := sys m; heap := heap m ++ [tick_session ls]; world := w |},
     [EvCurrentState ls]).
Proof.
  intros E. unfold newTickSession, bind, currentState. rewrite E. reflexivity.
Qed.

(** [runOnce] with the mutex free: the body runs on the session found in the
    slot, the slot is released, and a panic of the body is reported. *)
Lemma runOnce_eq (m : Machine) ls w :
  lock (sys m) = false ->
  CurrentState (world m) = (ls, w) ->
  let r := runOnce_body ls (current (sys m)) (with_world m w) in
  runOnce m =
    (Ret tt, set_sys idle_sys (final_of r),
     EvCurrentState ls :: events_of r ++ EvRelease :: panic_report (outcome_of r)).
Proof.
  intros Hl E r.
  pose proof (tame_final_sys _ (with_world m w) (tame_runOnce_body ls (current (sys m)))) as Hsys.
  pose proof (total_runOnce_body ls (current (sys m)) (with_world m w)) as Htot.
  fold r in Hsys, Htot.
  unfold runOnce, defer_recover.
  rewrite bind_Ret with (a := ls) (m1 := with_world m w) (ev1 := [EvCurrentState ls])
    by (unfold currentState; by rewrite E).
  destruct m as [[l c] h w0]; simpl in *; subst l.
  unfold bind at 1. simpl. unfold bind at 1. simpl. unfold bind at 1. simpl.
  unfold defer. change (runOnce_body ls c _) with r.
  destruct r as [[[[]|pv|hr] m1] ev1] eqn:Er; simpl in *.
  - rewrite release_free by (by rewrite Hsys). simpl.
    by rewrite app_nil_r.
  - rewrite release_free by (by rewrite Hsys). simpl.
    by rewrite <- app_assoc.
  - by destruct (Htot hr).
Qed.

(** A tick from an idle scheduler. *)
Lemma Tick_idle (m : Machine) ls1 w1 ls2 w2 :
  lock (sys m) = false -> current (sys m) = None ->
  CurrentState (world m) = (ls1, w1) ->
  CurrentState w1 = (ls2, w2) ->
  let p := length (heap m) in
  let r := runOnce_body ls2 (Some p) (ticking m ls1 w2) in
  Tick m =
    (Ret (Some p), set_sys idle_sys (final_of r),
     [EvCurrentState ls1; EvInstall p; EvCurrentState ls2]
       ++ events_of r ++ EvRelease :: panic_report (outcome_of r)).
Proof.
  intros Hl Hc E1 E2.
  destruct m as [[l c] h w0]; simpl in Hl, Hc, E1; subst l c.
  intros p r. unfold Tick.
  unfold bind at 1. simpl. unfold bind at 1. simpl.
  rewrite bind_Ret with (a := length h)
    (m1 := {| sys := {| lock := true; current := None |};
              heap := h ++ [tick_session ls1]; world := w1 |})
    (ev1 := [EvCurrentState ls1])
    by (by apply (newTickSession_eq
             {| sys := {| lock := true; current := None |}; heap := h; world := w0 |})).
  unfold bind at 1. simpl. unfold bind at 1. simpl.
  pose proof (runOnce_eq
    {| sys := busy_sys (length h); heap := h ++ [tick_session ls1]; world := w1 |}
    ls2 w2 eq_refl E2) as Hr.
  simpl in Hr. unfold busy_sys in Hr.
  unfold bind, set_sys. simpl. unfold busy_sys.
  rewrite Hr. simpl. rewrite app_nil_r. reflexivity.
Qed.

Lemma with_world_id (m : Machine) : with_world m (world m) = m.
Proof. by destruct m. Qed.

Lemma runOnce_body_shape ls p (m : Machine) s :
  heap m !! p = Some s ->
  body_shape ls p m s (runOnce_body ls (Some p) m).
Proof.
  intros Hp. rewrite (runOnce_body_eq ls p m s Hp). cbv zeta.
  fold (history_empty_log ls (FirstLedger (SessionCursor s))).
  destruct (Z.gtb_spec (FirstLedger (SessionCursor s)) (LastLedger (SessionCursor s)))
    as [Hgt|Hle].
  { apply shape_empty; [lia|reflexivity]. }
  destruct (Z.eqb_spec (FirstLedger (SessionCursor s)) (CoreElder ls)) as [Heq|Hne];
    cbn [negb].
  { apply (shape_run _ _ _ _ _ (world m) []); [assumption|by left|].
    by rewrite app_nil_r, with_world_id. }
  destruct (validateLedgerChain_final (FirstLedger (SessionCursor s)) m) as [w Hw].
  pose proof (total_validateLedgerChain (FirstLedger (SessionCursor s)) m) as Htot.
  destruct (validateLedgerChain (FirstLedger (SessionCursor s)) m)
    as [[[[err|]|pv|r] m1] ev] eqn:Ev; simpl in Hw; subst m1.
  - by eapply shape_gap.
  - eapply shape_run; [assumption|right; by split|].
    by rewrite prepend_prepend.
  - by eapply shape_validator_panic.
  - by destruct (Htot r).
Qed.

(** What the import step emits, and on which object it works. *)
Lemma runOnce_import_events p (m : Machine) s e :
  heap m !! p = Some s ->
  In e (events_of (runOnce_import p m)) ->
  e = EvRun p s \/ (exists pv, e = EvPanic pv) \/
  (exists err, e = EvLog (LogSessionFailed err)).
Proof.
  intros Hp. rewrite (runOnce_import_eq p m s Hp).
  destruct (SessionRun s (world m)) as [[s' [pv|]] w]; simpl.
  - intros [<-|[<-|[]]]; eauto.
  - destruct (Err s'); simpl; intros Hin;
      repeat (destruct Hin as [<-|Hin]; [eauto|]); contradiction.
Qed.

Lemma runOnce_import_runs p (m : Machine) s :
  heap m !! p = Some s -> In (EvRun p s) (events_of (runOnce_import p m)).
Proof.
  intros Hp. rewrite (runOnce_import_eq p m s Hp).
  destruct (SessionRun s (world m)) as [[s' [pv|]] w]; simpl; auto.
Qed.

Lemma history_empty_log_events ls first e :
  In e (history_empty_log ls first) -> e = EvLog (LogHistoryEmpty first).
Proof.
  unfold history_empty_log. destruct (HistoryLatest ls =? 0); simpl; [|tauto].
  by intros [<-|[]].
Qed.

(** Everything a tick from an idle scheduler emits. *)
Lemma Tick_idle_events {A} ls1 ls2 p (r : Result A) e :
  In e ([EvCurrentState ls1; EvInstall p; EvCurrentState ls2]
          ++ events_of r ++ EvRelease :: panic_report (outcome_of r)) ->
  e = EvCurrentState ls1 \/ e = EvInstall p \/ e = EvCurrentState ls2 \/
  In e (events_of r) \/ e = EvRelease \/
  exists pv, outcome_of r = Panic pv /\
    (e = EvLog (LogSessionPanicked (ErrFromPanic pv)) \/ e = EvSentry (ErrFromPanic pv)).
Proof.
  rewrite !in_app_iff. simpl.
  intros [[<-|[<-|[<-|[]]]]|[Hin|[<-|Hin]]]; auto 6.
  destruct (outcome_of r) as [a|pv|hr]; simpl in Hin; try contradiction.
  destruct Hin as [<-|[<-|[]]]; eauto 10.
Qed.

(** The body of [runOnce] runs no session but the one it found, in the state
    it found it in. *)
Lemma runOnce_body_runs ls p (m : Machine) s q s' :
  heap m !! p = Some s ->
  In (EvRun q s') (events_of (runOnce_body ls (Some p) m)) ->
  q = p /\ s' = s.
Proof.
  intros Hp.
  destruct (runOnce_body_shape ls p m s Hp) as
    [Hgt ->|err w evv Hle Hne Ev ->|pv w evv Hle Hne Ev ->|w evv Hle Hrun ->].
  - intros [].
  - simpl. rewrite !in_app_iff. intros [Hin|[Hin|[Hin|[]]]]; try discriminate.
    + apply history_empty_log_events in Hin. discriminate.
    + pose proof (validateLedgerChain_events _ m _ ltac:(by rewrite Ev)) as Hv.
      destruct Hv as [?|[?|[? ?]]]; discriminate.
  - simpl. rewrite !in_app_iff. intros [Hin|Hin].
    + apply history_empty_log_events in Hin. discriminate.
    + pose proof (validateLedgerChain_events _ m _ ltac:(by rewrite Ev)) as Hv.
      destruct Hv as [?|[?|[? ?]]]; discriminate.
  - rewrite events_prepend, !in_app_iff. intros [[Hin|Hin]|Hin].
    + apply history_empty_log_events in Hin. discriminate.
    + destruct Hrun as [(_ & _ & ->)|[_ Ev]]; [destruct Hin|].
      pose proof (validateLedgerChain_events _ m _ ltac:(by rewrite Ev)) as Hv.
      destruct Hv as [?|[?|[? ?]]]; discriminate.
    + apply (runOnce_import_events p _ s) in Hin; [|exact Hp].
      destruct Hin as [[= -> ->]|[[? ?]|[? ?]]]; [by split|discriminate..].
Qed.



(** The tick that follows a tick which came back to an idle scheduler finds
    the slot free again. *)
Lemma Tick_again (m : Machine) :
  sys m = idle_sys ->
  exists m' evs, Tick m = (Ret (Some (length (heap m))), m', evs).
Proof.
  intros Hs.
  destruct (CurrentState (world m)) as [ls1 w1] eqn:E1.
  destruct (CurrentState w1) as [ls2 w2] eqn:E2.
  rewrite (Tick_idle m ls1 w1 ls2 w2) by (by rewrite ?Hs).
  by eexists _, _.
Qed.

(** The validator is called on the first ledger of the session exactly when
    the range is not empty and does not start at the elder ledger of
    core. *)
Lemma runOnce_body_validates ls p (m : Machine) s :
  heap m !! p = Some s ->
  In (EvHeaderBySequence (FirstLedger (SessionCursor s)))
     (events_of (runOnce_body ls (Some p) m)) <->
  FirstLedger (SessionCursor s) <= LastLedger (SessionCursor s) /\
  FirstLedger (SessionCursor s) <> CoreElder ls.
Proof.
  intros Hp.
  destruct (runOnce_body_shape ls p m s Hp) as
    [Hgt ->|err w evv Hle Hne Ev ->|pv w evv Hle Hne Ev ->|w evv Hle Hrun ->].
  - simpl. split; [tauto|lia].
  - split; [by intros _|intros _]. simpl. rewrite !in_app_iff. right; left.
    pose proof (validateLedgerChain_first_event (FirstLedger (SessionCursor s)) m) as Hv.
    by rewrite Ev in Hv.
  - split; [by intros _|intros _]. simpl. rewrite !in_app_iff. right.
    pose proof (validateLedgerChain_first_event (FirstLedger (SessionCursor s)) m) as Hv.
    by rewrite Ev in Hv.
  - rewrite events_prepend, !in_app_iff.
    destruct Hrun as [(Heq & -> & ->)|[Hne Ev]].
    + split; [|tauto]. intros [[Hin|[]]|Hin].
      * apply history_empty_log_events in Hin. discriminate.
      * rewrite with_world_id in Hin.
        apply (runOnce_import_events p _ s) in Hin; [|exact Hp].
        destruct Hin as [?|[[? ?]|[? ?]]]; discriminate.
    + split; [by intros _|intros _]. left; right.
      pose proof (validateLedgerChain_first_event (FirstLedger (SessionCursor s)) m) as Hv.
      by rewrite Ev in Hv.
Qed.

(** When the range is empty or the validator reports a gap, the body of
    [runOnce] runs no session, raises no panic, and leaves the heap as it
    is. *)
Lemma runOnce_body_empty ls p (m : Machine) s :
  heap m !! p = Some s ->
  FirstLedger (SessionCursor s) > LastLedger (SessionCursor s) ->
  runOnce_body ls (Some p) m = (Ret tt, m, []).
Proof.
  intros Hp Hgt. rewrite (runOnce_body_eq ls p m s Hp). cbv zeta.
  destruct (Z.gtb_spec (FirstLedger (SessionCursor s)) (LastLedger (SessionCursor s)));
    [reflexivity|lia].
Qed.

Lemma runOnce_body_gap ls p (m : Machine) s err mv evv :
  heap m !! p = Some s ->
  FirstLedger (SessionCursor s) <= LastLedger (SessionCursor s) ->
  FirstLedger (SessionCursor s) <> CoreElder ls ->
  validateLedgerChain (FirstLedger (SessionCursor s)) m = (Ret (Some err), mv, evv) ->
  runOnce_body ls (Some p) m =
    (Ret tt, mv,
     history_empty_log ls (FirstLedger (SessionCursor s)) ++ evv ++
     [EvLog (LogLedgerGap (FirstLedger (SessionCursor s)) err)]) /\
  heap mv = heap m.
Proof.
  intros Hp Hle Hne Ev. rewrite (runOnce_body_eq ls p m s Hp). cbv zeta.
  fold (history_empty_log ls (FirstLedger (SessionCursor s))).
  destruct (Z.gtb_spec (FirstLedger (SessionCursor s)) (LastLedger (SessionCursor s)));
    [lia|].
  destruct (Z.eqb_spec (FirstLedger (SessionCursor s)) (CoreElder ls)); [done|].
  cbn [negb]. rewrite Ev. split; [reflexivity|].
  destruct (validateLedgerChain_final (FirstLedger (SessionCursor s)) m) as [w Hw].
  rewrite Ev in Hw. simpl in Hw. by subst mv.
Qed.

Lemma runOnce_body_run ls p (m : Machine) s w evv :
  heap m !! p = Some s ->
  FirstLedger (SessionCursor s) <= LastLedger (SessionCursor s) ->
  (FirstLedger (SessionCursor s) = CoreElder ls /\ w = world m /\ evv = []) \/
  (FirstLedger (SessionCursor s) <> CoreElder ls /\
   validateLedgerChain (FirstLedger (SessionCursor s)) m =
     (Ret None, with_world m w, evv)) ->
  runOnce_body ls (Some p) m =
    prepend (history_empty_log ls (FirstLedger (SessionCursor s)) ++ evv)
      (runOnce_import p (with_world m w)).
Proof.
  intros Hp Hle Hrun. rewrite (runOnce_body_eq ls p m s Hp). cbv zeta.
  fold (history_empty_log ls (FirstLedger (SessionCursor s))).
  destruct (Z.gtb_spec (FirstLedger (SessionCursor s)) (LastLedger (SessionCursor s)));
    [lia|].
  destruct Hrun as [(Heq & -> & ->)|[Hne Ev]].
  - rewrite Heq, Z.eqb_refl. cbn [negb]. by rewrite app_nil_r, with_world_id.
  - destruct (Z.eqb_spec (FirstLedger (SessionCursor s)) (CoreElder ls)); [done|].
    cbn [negb]. rewrite Ev. by rewrite prepend_prepend.
Qed.

Lemma gap_events_quiet ls first err evv seq (m mv : Machine) e :
  validateLedgerChain seq m = (Ret (Some err), mv, evv) ->
  In e (history_empty_log ls first ++ evv ++ [EvLog (LogLedgerGap first err)]) ->
  (forall q s, e <> EvRun q s) /\ (forall pv, e <> EvPanic pv).
Proof.
  intros Ev. rewrite !in_app_iff. intros [Hin|[Hin|[<-|[]]]].
  - apply history_empty_log_events in Hin. by subst e.
  - revert Hin. pose proof (validateLedgerChain_cases seq m) as Hc.
    rewrite Ev in Hc.
    destruct (LedgerHeaderBySequence seq (world m)) as [[cur|e'|pv] w1].
    + destruct (LedgerHeaderBySequence (Int32.sub seq 1) w1) as [[prev|e'|pv] w2];
        try discriminate Hc; injection Hc as _ _ ->;
        intros Hin; repeat (destruct Hin as [<-|Hin]; [done|]); contradiction.
    + injection Hc as _ _ ->. by intros [<-|[]].
    + discriminate.
  - done.
Qed.

(** The body of [runOnce] allocates nothing. *)
Lemma runOnce_body_heap_length ls p (m : Machine) s :
  heap m !! p = Some s ->
  length (heap (final_of (runOnce_body ls (Some p) m))) = length (heap m).
Proof.
  intros Hp.
  destruct (runOnce_body_shape ls p m s Hp) as
    [Hgt ->|err w evv Hle Hne Ev ->|pv w evv Hle Hne Ev ->|w evv Hle Hrun ->];
    try reflexivity.
  rewrite final_prepend, (runOnce_import_eq p (with_world m w) s Hp).
  destruct (SessionRun s (world (with_world m w))) as [[s' [pv|]] w'];
    cbn [final_of fst snd heap with_world]; apply length_insert.
Qed.

End TickFacts.

(** ** Maximal runs *)

Section RunsFacts.

Lemma covers_nil x : ~ covers [] x.
Proof. intros [r [[] _]]. Qed.

Lemma covers_cons r rs x : covers (r :: rs) x <-> fst r <= x <= snd r \/ covers rs x.
Proof.
  unfold covers. split.
  - intros [r' [[<-|Hin] Hx]]; [by left|right; eauto].
  - intros [Hx|[r' [Hin Hx]]]; [exists r|exists r']; simpl; auto.
Qed.

Lemma separated_head_le s e rs : separated ((s, e) :: rs) -> s <= e.
Proof. by inversion 1. Qed.

Lemma separated_tail r rs : separated (r :: rs) -> separated rs.
Proof. inversion 1; subst; [constructor|assumption]. Qed.

(** Everything in the later runs lies beyond the gap after the first. *)
Lemma separated_tail_gt rs : forall s e x,
  separated ((s, e) :: rs) -> covers rs x -> e + 1 < x.
Proof.
  induction rs as [|[s' e'] rs IH]; intros s e x Hsep Hc.
  - by destruct (covers_nil x).
  - inversion Hsep as [| |? ? ? ? ? Hse Hgap Hsep']; subst.
    apply covers_cons in Hc as [Hx|Hc]; simpl in *; [lia|].
    pose proof (separated_head_le _ _ _ Hsep').
    specialize (IH s' e' x Hsep' Hc). lia.
Qed.

Lemma coalesce_from_head l : forall start end_,
  exists e rs, coalesce_from start end_ l = (start, e) :: rs /\ end_ <= e.
Proof.
  induction l as [|y l IH]; intros start end_; simpl.
  - exists end_, []. split; [reflexivity|lia].
  - destruct (y =? end_ + 1) eqn:E.
    + apply Z.eqb_eq in E. destruct (IH start y) as (e & rs & -> & Hle).
      exists e, rs. split; [reflexivity|lia].
    + exists end_, (coalesce_from y y l). split; [reflexivity|lia].
Qed.

Lemma coalesce_from_runs l : forall start end_,
  start <= end_ -> ascending (end_ :: l) ->
  separated (coalesce_from start end_ l) /\
  forall x, covers (coalesce_from start end_ l) x <-> (start <= x <= end_ \/ In x l).
Proof.
  induction l as [|y l IH]; intros start end_ Hse Hasc.
  - simpl. split; [by constructor|].
    intros x. rewrite covers_cons. simpl. pose proof (covers_nil x). tauto.
  - apply StronglySorted_inv in Hasc as [Hasc Hall].
    apply Forall_inv in Hall as Hlt.
    simpl. destruct (y =? end_ + 1) eqn:E.
    + apply Z.eqb_eq in E.
      destruct (IH start y ltac:(lia) Hasc) as [Hsep Hcov].
      split; [assumption|]. intros x. rewrite Hcov. simpl. intuition lia.
    + apply Z.eqb_neq in E.
      destruct (IH y y ltac:(lia) Hasc) as [Hsep Hcov].
      destruct (coalesce_from_head l y y) as (e & rs & Heq & Hle).
      split.
      * rewrite Heq in *. constructor; [assumption|lia|assumption].
      * intros x. rewrite covers_cons, Hcov. simpl. intuition lia.
Qed.

(** The coalescer of the specification yields the maximal runs. *)
Lemma RangeCoalescer_maximal l : ascending l -> maximal_runs l (RangeCoalescer l).
Proof.
  intros Hasc. destruct l as [|z l]; simpl.
  - split; [constructor|]. intros x. pose proof (covers_nil x). simpl. tauto.
  - destruct (coalesce_from_runs l z z ltac:(lia) Hasc) as [Hsep Hcov].
    split; [assumption|]. intros x. rewrite Hcov. simpl. intuition lia.
Qed.

(** Separated runs are determined by the set they cover. *)
Lemma separated_unique rs : forall rs',
  separated rs -> separated rs' ->
  (forall x, covers rs x <-> covers rs' x) -> rs = rs'.
Proof.
  induction rs as [|[s e] rs IH]; intros [|[s' e'] rs'] H1 H2 Hc.
  - reflexivity.
  - pose proof (separated_head_le _ _ _ H2).
    destruct (covers_nil s'). apply Hc, covers_cons. simpl. lia.
  - pose proof (separated_head_le _ _ _ H1).
    destruct (covers_nil s). apply Hc, covers_cons. simpl. lia.
  - pose proof (separated_head_le _ _ _ H1) as Hse.
    pose proof (separated_head_le _ _ _ H2) as Hse'.
    pose proof (fun x => separated_tail_gt rs s e x H1) as Hgt.
    pose proof (fun x => separated_tail_gt rs' s' e' x H2) as Hgt'.
    assert (Hin : forall x, s <= x <= e \/ covers rs x <-> s' <= x <= e' \/ covers rs' x).
    { intros x. specialize (Hc x). by rewrite !covers_cons in Hc. }
    assert (s = s') as <-.
    { pose proof (proj1 (Hin s) ltac:(lia)) as [?|Hs1]; [|specialize (Hgt' _ Hs1)];
      pose proof (proj2 (Hin s') ltac:(lia)) as [?|Hs2]; [|specialize (Hgt _ Hs2)| |specialize (Hgt _ Hs2)];
      lia. }
    assert (e = e') as <-.
    { destruct (Z.lt_trichotomy e e') as [Hlt|[Heq|Hlt]]; [|assumption|].
      - pose proof (proj2 (Hin (e + 1)) ltac:(lia)) as [?|Hs]; [lia|].
        specialize (Hgt _ Hs). lia.
      - pose proof (proj1 (Hin (e' + 1)) ltac:(lia)) as [?|Hs]; [lia|].
        specialize (Hgt' _ Hs). lia. }
    f_equal. apply IH; [by eapply separated_tail|by eapply separated_tail|].
    intros x. split; intros Hx.
    + pose proof (Hgt _ Hx). destruct (proj1 (Hin x) (or_intror Hx)); [lia|assumption].
    + pose proof (Hgt' _ Hx). destruct (proj2 (Hin x) (or_intror Hx)); [lia|assumption].
Qed.

Lemma maximal_runs_unique l rs rs' :
  maximal_runs l rs -> maximal_runs l rs' -> rs = rs'.
Proof.
  intros [H1 Hc1] [H2 Hc2]. apply separated_unique; try assumption.
  intros x. by rewrite <- Hc1, Hc2.
Qed.

Lemma filter_length_lt {A} (f : A -> bool) (l : list A) x :
  In x l -> f x = false -> (length (List.filter f l) < length l)%nat.
Proof.
  induction l as [|y l IH]; intros Hin Hf; [destruct Hin|].
  pose proof (List.filter_length_le f l) as Hle. simpl.
  destruct Hin as [->|Hin].
  - rewrite Hf. lia.
  - specialize (IH Hin Hf). destruct (f y); simpl; lia.
Qed.

(** No list of runs with the same union is shorter than the separated
    one. *)
Lemma separated_minimal rs : forall rs',
  separated rs ->
  Forall (fun r => fst r <= snd r) rs' ->
  (forall x, covers rs x <-> covers rs' x) ->
  (length rs <= length rs')%nat.
Proof.
  induction rs as [|[s e] rs IH]; intros rs' Hsep Hne Hc; simpl; [lia|].
  pose proof (separated_head_le _ _ _ Hsep) as Hse.
  pose proof (fun x => separated_tail_gt rs s e x Hsep) as Hgt.
  assert (Hin : forall x, s <= x <= e \/ covers rs x <-> covers rs' x).
  { intros x. specialize (Hc x). by rewrite covers_cons in Hc. }
  assert (Hnext : ~ covers rs' (e + 1)).
  { intros Hx. apply Hin in Hx as [?|Hx]; [lia|]. specialize (Hgt _ Hx). lia. }
  set (rs'' := List.filter (fun r => e <? fst r) rs').
  assert (Hlen : (length rs'' < length rs')%nat).
  { destruct (proj1 (Hin s) ltac:(lia)) as (r0 & Hr0 & Hs).
    apply (filter_length_lt _ _ r0 Hr0). apply Z.ltb_ge. lia. }
  enough (length rs <= length rs'')%nat by lia.
  apply IH.
  - by eapply separated_tail.
  - rewrite List.Forall_forall in *. intros r Hr.
    apply List.filter_In in Hr as [Hr _]. by apply Hne.
  - intros x. split.
    + intros Hx. pose proof (Hgt _ Hx) as Hxe.
      destruct (proj1 (Hin x) (or_intror Hx)) as (r & Hr & Hrx).
      exists r. split; [|assumption].
      apply List.filter_In. split; [assumption|]. apply Z.ltb_lt.
      destruct (Z.lt_ge_cases e (fst r)) as [?|Hle]; [assumption|].
      destruct Hnext. exists r. split; [assumption|lia].
    + intros (r & Hr & Hrx). apply List.filter_In in Hr as [Hr He].
      apply Z.ltb_lt in He.
      destruct (proj2 (Hin x)) as [?|?]; [by exists r|lia|assumption].
Qed.

Lemma maximal_runs_minimal l rs rs' :
  maximal_runs l rs -> run_cover l rs' -> (length rs <= length rs')%nat.
Proof.
  intros [Hsep Hc] [Hne Hc']. apply separated_minimal; try assumption.
  intros x. by rewrite <- Hc, Hc'.
Qed.

Lemma coalesce_from_lower l : forall start end_ lo,
  lo < start -> ascending (end_ :: l) -> start <= end_ ->
  Forall (fun r => lo < fst r) (coalesce_from start end_ l).
Proof.
  induction l as [|y l IH]; intros start end_ lo Hlo Hasc Hse; simpl.
  - by repeat constructor.
  - apply StronglySorted_inv in Hasc as [Hasc Hall].
    apply Forall_inv in Hall as Hlt.
    destruct (y =? end_ + 1).
    + apply IH; [assumption|assumption|lia].
    + constructor; [assumption|]. apply IH; [lia|assumption|lia].
Qed.
End RunsFacts.

(** ** Reingestion *)

Section ReingestFacts.
Context `{Collaborators}.

Local Arguments flush : simpl never.
Local Arguments drain : simpl never.

Lemma bind_ret_l {A B} (a : A) (k : A -> M B) m : bind (ret a) k m = k a m.
Proof. unfold bind, ret. apply prepend_nil. Qed.

Lemma flush_eq (start end_ n : Z) (m : Machine) :
  let s0 := set_ClearExisting true (NewSession start end_) in
  flush start end_ n m =
    match SessionRun s0 (world m) with
    | ((s', None), w) =>
        (Ret (match Err s' with
              | Some ferr => (n, Some ferr)
              | None => (Int.add n (Ingested s'), None)
              end),
         {| sys := sys m; heap := heap m ++ [s']; world := w |},
         [EvRun (length (heap m)) s0])
    | ((s', Some pv), w) =>
        (Panic pv,
         {| sys := sys m; heap := heap m ++ [s']; world := w |},
         [EvRun (length (heap m)) s0; EvPanic pv])
    end.
Proof.
  intros s0. unfold flush, bind. rewrite ReingestRange_eq. fold s0.
  destruct (SessionRun s0 (world m)) as [[s' [pv|]] w]; simpl; [reflexivity|].
  by destruct (Err s').
Qed.

Lemma ranges_run_app ev1 ev2 : ranges_run (ev1 ++ ev2) = ranges_run ev1 ++ ranges_run ev2.
Proof. unfold ranges_run. apply flat_map_app. Qed.

Lemma flush_ranges start end_ n m :
  ranges_run (events_of (flush start end_ n m)) = [(start, end_)].
Proof.
  rewrite flush_eq.
  by destruct (SessionRun _ (world m)) as [[s' [pv|]] w].
Qed.

Lemma flush_sessions start end_ n m p s :
  In (EvRun p s) (events_of (flush start end_ n m)) ->
  s = set_ClearExisting true (NewSession start end_).
Proof.
  rewrite flush_eq.
  destruct (SessionRun _ (world m)) as [[s' [pv|]] w]; simpl.
  - by intros [[= _ <-]|[|[]]].
  - by intros [[= _ <-]|[]].
Qed.

(** Flushing a run and then handing on its result unchanged is flushing
    it. *)
Lemma flushes_one start end_ n m :
  flushes [(start, end_)] n m = flush start end_ n m.
Proof.
  simpl. unfold bind.
  destruct (flush start end_ n m) as [[[[n' [err|]]|pv|r] m1] ev1]; simpl;
    by rewrite ?app_nil_r.
Qed.

(** The inner loop refines the coalescer of the specification once a run is
    open ([start] is not the sentinel) and the values to come are ascending
    and not the sentinel either. *)
Lemma scan_flushes rest : forall start end_ n m,
  start <> 0 ->
  Int32.in_range end_ -> Forall Int32.in_range rest ->
  ascending (end_ :: rest) -> ~ In 0 rest ->
  bind (scan rest start end_ n) last_flush m =
  flushes (coalesce_from start end_ rest) n m.
Proof.
  induction rest as [|x rest IH]; intros start end_ n m Hs He Hr Hasc H0.
  - cbn [scan coalesce_from]. rewrite bind_ret_l. cbn [last_flush].
    by rewrite flushes_one.
  - apply StronglySorted_inv in Hasc as [Hasc Hall].
    apply Forall_inv in Hall as Hlt.
    apply Forall_cons_iff in Hr as [Hx Hr].
    assert (x <> 0) as Hx0 by (intros ->; apply H0; by left).
    assert (~ In 0 rest) as H0' by (intros Hin; apply H0; by right).
    cbn [scan coalesce_from].
    destruct (start =? 0) eqn:Es; [by apply Z.eqb_eq in Es|].
    rewrite Int32Facts.add_small
      by (unfold Int32.in_range in *; lia).
    destruct (x =? end_ + 1).
    + by apply IH.
    + rewrite bind_assoc. cbn [flushes fst snd]. unfold bind at 1 3.
      destruct (flush start end_ n m) as [[[f|pv|r] m1] ev1]; try reflexivity.
      f_equal. destruct (snd f) as [err|].
      * by rewrite bind_ret_l.
      * by apply IH.
Qed.

(** One turn of the outer loop on a list without the sentinel value. *)
Lemma drain_flushes (outdated : list Z) (n : Z) (m : Machine) :
  outdated <> [] ->
  Forall Int32.in_range outdated -> ascending outdated -> ~ In 0 outdated ->
  drain outdated n m =
    prepend [EvLog (LogReingestOutdated (List.hd 0 outdated) (length outdated))]
      (flushes (RangeCoalescer outdated) n m).
Proof.
  intros Hne Hr Hasc H0. destruct outdated as [|x rest]; [done|].
  apply Forall_cons_iff in Hr as [Hx Hr].
  unfold drain, log. unfold bind at 1. cbn [emit]. f_equal.
  cbn [scan RangeCoalescer]. rewrite Z.eqb_refl.
  apply scan_flushes; try assumption.
  - intros ->. apply H0. by left.
  - intros Hin. apply H0. by right.
Qed.

(** One turn of the outer loop on a list that begins with the sentinel
    value: the scan starts over at the second element. *)
Lemma drain_leading_zero (rest : list Z) (n : Z) (m : Machine) :
  drain (0 :: rest) n m =
    prepend [EvLog (LogReingestOutdated 0 (S (length rest)))]
      (bind (scan rest 0 0 n) last_flush m).
Proof.
  unfold drain, log. unfold bind at 1. cbn [emit]. f_equal.
Qed.

Lemma drain_zero_then (x : Z) (rest : list Z) (n : Z) (m : Machine) :
  Forall Int32.in_range (0 :: x :: rest) -> ascending (0 :: x :: rest) ->
  drain (0 :: x :: rest) n m =
    prepend [EvLog (LogReingestOutdated 0 (S (S (length rest))))]
      (flushes (RangeCoalescer (x :: rest)) n m).
Proof.
  intros Hr Hasc. rewrite drain_leading_zero. f_equal.
  apply Forall_cons_iff in Hr as [_ Hr].
  apply Forall_cons_iff in Hr as [Hx Hr].
  apply StronglySorted_inv in Hasc as [Hasc Hall].
  apply Forall_inv in Hall as Hlt.
  cbn [scan RangeCoalescer]. rewrite Z.eqb_refl.
  apply scan_flushes; try assumption; [lia|].
  apply StronglySorted_inv in Hasc as [_ Hall'].
  rewrite List.Forall_forall in Hall'. intros Hin. specialize (Hall' _ Hin). lia.
Qed.

(** The sessions a series of flushes runs. *)
Lemma flushes_prefix rs : forall n m,
  ranges_run (events_of (flushes rs n m)) `prefix_of` rs.
Proof.
  induction rs as [|[s e] rs IH]; intros n m; cbn [flushes fst snd].
  - by exists [].
  - unfold bind. pose proof (flush_ranges s e n m) as Hf.
    destruct (flush s e n m) as [[[f|pv|r] m1] ev1]; cbn [events_of snd] in *.
    + rewrite events_prepend, ranges_run_app, Hf.
      destruct (snd f) as [err|]; cbn [app].
      * by apply prefix_cons, prefix_nil.
      * by apply prefix_cons.
    + rewrite Hf. by apply prefix_cons, prefix_nil.
    + rewrite Hf. by apply prefix_cons, prefix_nil.
Qed.

Lemma flushes_complete rs : forall n m n',
  outcome_of (flushes rs n m) = Ret (n', None) ->
  ranges_run (events_of (flushes rs n m)) = rs.
Proof.
  induction rs as [|[s e] rs IH]; intros n m n'; cbn [flushes fst snd].
  - reflexivity.
  - unfold bind. pose proof (flush_ranges s e n m) as Hf.
    destruct (flush s e n m) as [[[f|pv|r] m1] ev1]; cbn [events_of snd] in *;
      try discriminate.
    rewrite outcome_prepend, events_prepend, ranges_run_app, Hf.
    destruct (snd f) as [err|]; cbn [app]; [discriminate|].
    intros Ho. f_equal. by eapply IH.
Qed.

Lemma flushes_sessions rs : forall n m p s,
  In (EvRun p s) (events_of (flushes rs n m)) ->
  In (FirstLedger (SessionCursor s), LastLedger (SessionCursor s)) rs /\
  ClearExisting s = true.
Proof.
  induction rs as [|[s e] rs IH]; intros n m p s0; cbn [flushes fst snd].
  - intros [].
  - unfold bind. pose proof (flush_sessions s e n m p s0) as Hf.
    destruct (flush s e n m) as [[[f|pv|r] m1] ev1]; cbn [events_of snd] in *.
    + rewrite events_prepend, in_app_iff. intros [Hin|Hin].
      * rewrite (Hf Hin). split; [by left|reflexivity].
      * destruct (snd f) as [err|]; [destruct Hin|].
        destruct (IH _ _ _ _ Hin). split; [by right|assumption].
    + intros Hin. rewrite (Hf Hin). split; [by left|reflexivity].
    + intros Hin. rewrite (Hf Hin). split; [by left|reflexivity].
Qed.

(** *** The outer loop *)


Lemma ReingestOutdated_from_query_error fuel n (m : Machine) e w :
  OldestOutdatedLedgers CurrentVersion (world m) = (Fail e, w) ->
  ReingestOutdated_from (S fuel) n m =
    (Ret (n, Some e), with_world m w, [EvOutdatedLedgers CurrentVersion]).
Proof.
  intros E. cbn [ReingestOutdated_from]. unfold bind, oldestOutdatedLedgers.
  by rewrite E.
Qed.


Lemma ReingestOutdated_from_drain_error fuel n (m : Machine) outdated w n1 err m1 ev1 :
  OldestOutdatedLedgers CurrentVersion (world m) = (Ok outdated, w) ->
  outdated <> [] ->
  drain outdated n (with_world m w) = (Ret (n1, Some err), m1, ev1) ->
  ReingestOutdated_from (S fuel) n m =
    (Ret (n1, Some err), m1, EvOutdatedLedgers CurrentVersion :: ev1).
Proof.
  intros E Hne Hd. cbn [ReingestOutdated_from].
  unfold bind at 1, oldestOutdatedLedgers. rewrite E.
  destruct outdated as [|x rest]; [done|]. cbn [length Nat.eqb].
  unfold bind. rewrite Hd. simpl.
  by rewrite app_nil_r.
Qed.

End ReingestFacts.

(** ** Concurrent ticks *)

Section InterleavingFacts.

Lemma lookup_goto (pcs : list pc) t t' (new old l : pc) :
  pcs !! t = Some old ->
  <[t := new]> pcs !! t' = Some l ->
  (t' = t /\ l = new) \/ (t' <> t /\ pcs !! t' = Some l).
Proof.
  intros Hold Hnew. destruct (decide (t = t')) as [->|Hne].
  - left. rewrite list_lookup_insert_eq in Hnew by (by eapply lookup_lt_Some).
    by inversion Hnew.
  - right. rewrite list_lookup_insert_ne in Hnew by assumption. by split.
Qed.

Lemma conc_inv_init n : conc_inv (conc_init n).
Proof.
  split; simpl; intros.
  all: repeat match goal with
         | H : replicate _ _ !! _ = Some _ |- _ =>
             apply lookup_replicate in H as [-> _]
         end; simpl in *; congruence.
Qed.

Ltac split_lookups Ht :=
  repeat match goal with
    | H : <[_ := _]> _ !! _ = Some _ |- _ =>
        apply (lookup_goto _ _ _ _ _ _ Ht) in H as [[-> ->]|[? ?]]
    end.

Lemma thread_step_inv t st st' :
  conc_inv st -> thread_step t st = Some st' -> conc_inv st'.
Proof.
  intros [I1 I2 I3 I4 I5]. unfold thread_step.
  destruct (c_pcs st !! t) as [l|] eqn:Ht; [|discriminate].
  assert (Hh : holds_lock l = true -> forall t' l',
             c_pcs st !! t' = Some l' -> holds_lock l' = true -> t' = t)
    by (intros; eapply I1; eauto).
  assert (Ho : forall p, owns_slot l = Some p -> forall t' l' p',
             c_pcs st !! t' = Some l' -> owns_slot l' = Some p' -> t' = t)
    by (intros; eapply I3; eauto).
  pose proof (fun p => I4 t l p Ht) as Hcur. pose proof (I5 t l Ht) as Hfree.
  pose proof (fun E => I2 t l E Ht) as Hunl.
  destruct l; simpl in *;
    repeat match goal with
      | |- context [if c_lock st then _ else _] => destruct (c_lock st) eqn:Hl
      | |- context [match c_current st with _ => _ end] => destruct (c_current st) eqn:Hc
      end; intros [= <-]; split; simpl; intros; split_lookups Ht; simpl in *.
  all: try congruence.
  all: try (eapply I1; eassumption).
  all: try (eapply I2; eassumption).
  all: try (eapply I3; eassumption).
  all: try (eapply I4; eassumption).
  all: try (eapply I5; eassumption).
  all: try (match goal with
            | |- holds_lock ?l = false => destruct (holds_lock l) eqn:?; [|reflexivity]
            end).
  all: exfalso.
  all: try (pose proof (Hunl ltac:(first [assumption|reflexivity])); congruence).
  all: try match goal with
    | Hx : c_pcs _ !! ?a = Some ?la, Hy : holds_lock ?la = true |- _ =>
        first [ pose proof (I2 a la ltac:(first [assumption|reflexivity]) Hx); congruence
              | pose proof (Hh eq_refl a la Hx Hy); congruence ]
    | Hx : c_pcs _ !! ?a = Some ?la, Hy : owns_slot ?la = Some ?p |- _ =>
        first [ pose proof (Ho _ eq_refl a la p Hx Hy); congruence
              | pose proof (I4 a la p Hx Hy); pose proof (Hfree eq_refl); congruence ]
    end.
  match goal with
  | Hx : c_pcs _ !! ?a = Some ?la, Hy : found_free ?la = true |- _ =>
      assert (holds_lock la = true) as Hla by (destruct la; simpl in *; congruence);
      pose proof (Hh eq_refl a la Hx Hla); congruence
  end.
Qed.

Lemma reachable_inv n st : reachable n st -> conc_inv st.
Proof.
  induction 1 as [|st t st' _ IH Hstep].
  - apply conc_inv_init.
  - by eapply thread_step_inv.
Qed.

Lemma run_schedule_reachable n sched : forall st,
  reachable n st -> reachable n (run_schedule sched st).
Proof.
  induction sched as [|t sched IH]; intros st Hr; simpl; [assumption|].
  destruct (thread_step t st) as [st'|] eqn:E; apply IH; [|assumption].
  by eapply reachable_step.
Qed.

(** While the mutex is free nobody is inside a critical section. *)
Lemma holder_locked st t l :
  conc_inv st -> c_pcs st !! t = Some l -> holds_lock l = true -> c_lock st = true.
Proof.
  intros Hinv Ht Hl. destruct (c_lock st) eqn:E; [reflexivity|].
  rewrite (inv_unlocked st Hinv t l E Ht) in Hl. discriminate.
Qed.

Lemma found_free_holds l : found_free l = true -> holds_lock l = true.
Proof. by destruct l. Qed.

(** While a goroutine is between its check and its installation, no session
    is installed and no goroutine owns the slot. *)
Lemma found_free_no_owner st t l :
  conc_inv st -> c_pcs st !! t = Some l -> found_free l = true ->
  forall t' l', c_pcs st !! t' = Some l' -> owns_slot l' = None.
Proof.
  intros Hinv Ht Hl t' l' Ht'.
  destruct (owns_slot l') as [p|] eqn:E; [|reflexivity].
  pose proof (inv_current st Hinv t' l' p Ht' E) as Hc.
  rewrite (inv_found_free st Hinv t l Ht Hl) in Hc. discriminate.
Qed.

(** A goroutine that checks the slot while it is taken leaves [Tick] through
    the early return, and the slot is as it was. *)
Lemma busy_check st t p st' :
  c_current st = Some p -> c_pcs st !! t = Some L100 ->
  thread_step t st = Some st' ->
  c_pcs st' !! t = Some L102 /\ c_current st' = Some p /\
  forall st'', thread_step t st' = Some st'' ->
    c_pcs st'' !! t = Some Away /\ c_current st'' = Some p.
Proof.
  intros Hc Ht. unfold thread_step at 1. rewrite Ht, Hc. intros [= <-]. simpl.
  assert (Hlt : (t < length (c_pcs st))%nat) by (by eapply lookup_lt_Some).
  rewrite list_lookup_insert_eq by assumption.
  repeat split; try assumption.
  - unfold thread_step in H. simpl in H.
    rewrite list_lookup_insert_eq in H by assumption.
    injection H as <-. simpl. apply list_lookup_insert_eq.
    by rewrite length_insert.
  - unfold thread_step in H. simpl in H.
    rewrite list_lookup_insert_eq in H by assumption.
    by injection H as <-.
Qed.

(** A goroutine on its own goes through [Tick] as the sequential [Tick]
    does: from an idle [System] it installs the next fresh session and comes
    back to an idle [System]; from a busy one it comes back at once and
    changes nothing. *)
Lemma lone_goroutine_idle (next : nat) :
  run_schedule (replicate 13 0%nat) (mkConc false None next [Away]) =
    mkConc false None (S next) [Away].
Proof. reflexivity. Qed.

Lemma lone_goroutine_busy (p next : nat) :
  run_schedule (replicate 4 0%nat) (mkConc false (Some p) next [Away]) =
    mkConc false (Some p) next [Away].
Proof. reflexivity. Qed.
End InterleavingFacts.

Section Agreement.
Context `{Collaborators}.

(** The sequential tick and the goroutine of the interleaving model agree on
    what they leave in the [System] and on the pointer they use. *)
Lemma Tick_agrees_with_goroutine (m : Machine) :
  lock (sys m) = false ->
  let st := run_schedule
              (replicate (match current (sys m) with Some _ => 4 | None => 13 end) 0%nat)
              (mkConc (lock (sys m)) (current (sys m)) (length (heap m)) [Away]) in
  lock (sys (final_of (Tick m))) = c_lock st /\
  current (sys (final_of (Tick m))) = c_current st /\
  length (heap (final_of (Tick m))) = c_next st.
Proof.
  intros Hl. destruct (current (sys m)) as [p|] eqn:Hc.
  - rewrite (Tick_busy m p Hl Hc). rewrite Hl. cbv zeta.
    rewrite lone_goroutine_busy. cbn. by rewrite Hl, Hc.
  - destruct (CurrentState (world m)) as [ls1 w1] eqn:E1.
    destruct (CurrentState w1) as [ls2 w2] eqn:E2.
    rewrite (Tick_idle m ls1 w1 ls2 w2 Hl Hc E1 E2). rewrite Hl. cbv zeta.
    rewrite lone_goroutine_idle. cbn [final_of fst snd set_sys sys heap
      c_lock c_current c_next idle_sys lock current].
    repeat split.
    rewrite (runOnce_body_heap_length ls2 _ _ (tick_session ls1)) by apply lookup_snoc.
    cbn [ticking heap]. rewrite length_app. cbn [length]. lia.
Qed.
End Agreement.

(** * The scenario of the specification, run *)

(** Core holds ledgers 1 to 100 and history is empty: the tick ingests
    [[1, 100]] and looks up no header. *)
Example first_tick :
  @Tick Scenario.env (Scenario.idle (Scenario.fresh Scenario.Healthy)) =
    (Ret (Some 0%nat),
     @mkMachine Scenario.env idle_sys
       [{| SessionCursor := {| FirstLedger := 1; LastLedger := 100 |};
           ClearExisting := false; Ingested := 100; Err := None |}]
       {| Scenario.st_ledger := {| CoreElder := 1; CoreLatest := 100; HistoryLatest := 100 |};
          Scenario.st_headers := [];
          Scenario.st_outdated := [];
          Scenario.st_worker := Scenario.Healthy |},
     [EvCurrentState {| CoreElder := 1; CoreLatest := 100; HistoryLatest := 0 |};
      EvInstall 0%nat;
      EvCurrentState {| CoreElder := 1; CoreLatest := 100; HistoryLatest := 0 |};
      EvLog (LogHistoryEmpty 1);
      EvRun 0%nat (NewSession 1 100);
      EvRelease]).
Proof. reflexivity. Qed.

(** History is at 100 and core has moved on to 105: the tick validates
    ledger 101 against ledger 100 and then ingests [[101, 105]]. *)
Example later_tick :
  events_of (@Tick Scenario.env
      (Scenario.idle (Scenario.behind Scenario.linked Scenario.Healthy))) =
    [EvCurrentState {| CoreElder := 1; CoreLatest := 105; HistoryLatest := 100 |};
     EvInstall 0%nat;
     EvCurrentState {| CoreElder := 1; CoreLatest := 105; HistoryLatest := 100 |};
     EvHeaderBySequence 101;
     EvHeaderBySequence 100;
     EvRun 0%nat (NewSession 101 105);
     EvRelease].
Proof. reflexivity. Qed.

(** A worker that fails: the error stays in the session and is logged. *)
Example failing_tick :
  events_of (@Tick Scenario.env (Scenario.idle (Scenario.fresh Scenario.Failing))) =
    [EvCurrentState {| CoreElder := 1; CoreLatest := 100; HistoryLatest := 0 |};
     EvInstall 0%nat;
     EvCurrentState {| CoreElder := 1; CoreLatest := 100; HistoryLatest := 0 |};
     EvLog (LogHistoryEmpty 1);
     EvRun 0%nat (NewSession 1 100);
     EvLog (LogSessionFailed (ErrExternal "ingest failed"));
     EvRelease].
Proof. reflexivity. Qed.

(** The outdated ledgers 5, 6, 7, 10, 11, 15 are reingested in three
    sessions, and the second query finds nothing left. *)
Example reingest_outdated_runs :
  ranges_run (events_of (@ReingestOutdated Scenario.env 2
      (Scenario.idle (Scenario.stale [5; 6; 7; 10; 11; 15])))) =
    [(5, 7); (10, 11); (15, 15)] /\
  outcome_of (@ReingestOutdated Scenario.env 2
      (Scenario.idle (Scenario.stale [5; 6; 7; 10; 11; 15]))) = Ret (6, None).
Proof. split; reflexivity. Qed.

(** The loop bound of the model: with the sentinel value among the outdated
    ledgers two turns are needed, and one turn of fuel is not enough. *)
Example reingest_outdated_zero :
  ranges_run (events_of (@ReingestOutdated Scenario.env 3
      (Scenario.idle (Scenario.stale [0; 1])))) = [(1, 1); (0, 0)] /\
  outcome_of (@ReingestOutdated Scenario.env 1
      (Scenario.idle (Scenario.stale [0; 1]))) = Halt OutOfFuel.
Proof. split; reflexivity. Qed.

(** * The claims *)

(** C1.  When the [current] slot is taken, [Tick] returns nil, the
    "already in progress" no-op: it installs nothing and leaves the slot, the
    mutex, the heap and the world as they were.  Among goroutines calling
    [Tick] concurrently, the check of the slot and the installation happen
    inside one critical section (from the check that finds the slot empty to
    the installation the goroutine holds the mutex and the slot stays empty
    and unowned), so at most one goroutine at a time is between the
    installation of its session and its release; and a goroutine that checks
    the slot while another one owns it leaves through the early return. *)
Theorem Tick_already_in_progress :
  (forall (C : Collaborators) (m : Machine) (p : ptr),
     lock (sys m) = false -> current (sys m) = Some p ->
     Tick m = (Ret None, m, [EvLog LogAlreadyInProgress])) /\
  (forall (n : nat) (st : Conc),
     reachable n st ->
     (forall t1 t2 l1 l2 p1 p2,
        c_pcs st !! t1 = Some l1 -> c_pcs st !! t2 = Some l2 ->
        owns_slot l1 = Some p1 -> owns_slot l2 = Some p2 -> t1 = t2) /\
     (forall t l,
        c_pcs st !! t = Some l -> found_free l = true ->
        c_lock st = true /\ c_current st = None /\
        forall t' l', c_pcs st !! t' = Some l' -> owns_slot l' = None) /\
     (forall t l p,
        c_pcs st !! t = Some l -> owns_slot l = Some p ->
        c_current st = Some p /\
        forall t' st',
          c_pcs st !! t' = Some L100 -> thread_step t' st = Some st' ->
          c_pcs st' !! t' = Some L102 /\ c_current st' = Some p /\
          forall st'', thread_step t' st' = Some st'' ->
            c_pcs st'' !! t' = Some Away /\ c_current st'' = Some p)).
Proof.
  split.
  - intros C m p. apply Tick_busy.
  - intros n st Hr. pose proof (reachable_inv n st Hr) as Hinv.
    split; [|split].
    + apply (inv_owner st Hinv).
    + intros t l Ht Hl. split; [|split].
      * eapply holder_locked; eauto using found_free_holds.
      * by eapply inv_found_free.
      * by eapply found_free_no_owner.
    + intros t l p Ht Hl.
      pose proof (inv_current st Hinv t l p Ht Hl) as Hc.
      split; [assumption|]. intros t' st' Ht' Hs.
      by eapply busy_check.
Qed.

(** Witness of C1: a tick on a busy scheduler, and two goroutines of which
    the first has installed its session when the second checks the slot. *)
Lemma Tick_already_in_progress_witness :
  @Tick Scenario.env (Scenario.busy (Scenario.fresh Scenario.Healthy)) =
    (Ret None, Scenario.busy (Scenario.fresh Scenario.Healthy),
     [EvLog LogAlreadyInProgress]) /\
  c_current (run_schedule [0; 0; 0; 0; 0; 0; 1; 1]%nat (conc_init 2)) = Some 0%nat /\
  c_pcs (run_schedule [0; 0; 0; 0; 0; 0; 1; 1; 1]%nat (conc_init 2)) !! 1%nat = Some L102.
Proof.
  destruct Tick_already_in_progress as [Hseq Hconc].
  split.
  - apply (Hseq Scenario.env _ 0%nat); reflexivity.
  - destruct (Hconc 2%nat (run_schedule [0; 0; 0; 0; 0; 0; 1; 1]%nat (conc_init 2))
                (run_schedule_reachable _ _ _ (reachable_init 2)))
      as (_ & _ & Hbusy).
    destruct (Hbusy 0%nat (L151 0%nat) 0%nat eq_refl eq_refl) as [Hc Hstep].
    split; [exact Hc|].
    exact (proj1 (Hstep 1%nat _ eq_refl eq_refl)).
Defined.

(** C5.  [validateLedgerChain seq] loads the header of [seq] and then the
    header of [seq - 1].  If the first lookup fails it returns that error
    wrapped as a failure to load the current ledger; if the second fails,
    wrapped as a failure to load the previous ledger.  With both headers at
    hand it returns nil exactly when [PrevHash] of the first equals
    [LedgerHash] of the second, and on a mismatch the chain error, which is
    not a wrapped lookup error. *)
Theorem validateLedgerChain_spec (C : Collaborators) (seq : Z) (m : Machine) :
  (forall e w1,
     LedgerHeaderBySequence seq (world m) = (Fail e, w1) ->
     validateLedgerChain seq m =
       (Ret (Some (ErrWrap e "validateLedgerChain: failed to load cur ledger")),
        with_world m w1, [EvHeaderBySequence seq])) /\
  (forall cur w1 e w2,
     LedgerHeaderBySequence seq (world m) = (Ok cur, w1) ->
     LedgerHeaderBySequence (Int32.sub seq 1) w1 = (Fail e, w2) ->
     validateLedgerChain seq m =
       (Ret (Some (ErrWrap e "validateLedgerChain: failed to load prev ledger")),
        with_world m w2,
        [EvHeaderBySequence seq; EvHeaderBySequence (Int32.sub seq 1)])) /\
  (forall cur w1 prev w2,
     LedgerHeaderBySequence seq (world m) = (Ok cur, w1) ->
     LedgerHeaderBySequence (Int32.sub seq 1) w1 = (Ok prev, w2) ->
     (outcome_of (validateLedgerChain seq m) = Ret None <->
      PrevHash cur = LedgerHash prev) /\
     (PrevHash cur <> LedgerHash prev ->
      validateLedgerChain seq m =
        (Ret (Some (ErrNew "cur and prev ledger hashes don't match")),
         with_world m w2,
         [EvHeaderBySequence seq; EvHeaderBySequence (Int32.sub seq 1)]))) /\
  (forall cause msg,
     ErrNew "cur and prev ledger hashes don't match" <> ErrWrap cause msg).
Proof.
  repeat split.
  - intros e w1 E. rewrite validateLedgerChain_cases, E. reflexivity.
  - intros cur w1 e w2 E1 E2. rewrite validateLedgerChain_cases, E1, E2. reflexivity.
  - rewrite validateLedgerChain_cases, H, H0. simpl.
    destruct (String.eqb_spec (PrevHash cur) (LedgerHash prev)); [done|discriminate].
  - rewrite validateLedgerChain_cases, H, H0. simpl. intros Heq.
    apply String.eqb_eq in Heq. by rewrite Heq.
  - intros Hne. rewrite validateLedgerChain_cases, H, H0.
    apply String.eqb_neq in Hne. by rewrite Hne.
  - discriminate.
Qed.

(** Witness of C5: ledger 101 on a store whose header 101 does not link to
    header 100, on a store that lacks header 100, and on a store that lacks
    header 101. *)
Lemma validateLedgerChain_spec_witness :
  outcome_of (@validateLedgerChain Scenario.env 101
      (Scenario.idle (Scenario.behind Scenario.broken Scenario.Healthy))) =
    Ret (Some (ErrNew "cur and prev ledger hashes don't match")) /\
  outcome_of (@validateLedgerChain Scenario.env 101
      (Scenario.idle (Scenario.behind (tl Scenario.linked) Scenario.Healthy))) =
    Ret (Some (ErrWrap Scenario.no_rows "validateLedgerChain: failed to load prev ledger")) /\
  outcome_of (@validateLedgerChain Scenario.env 101
      (Scenario.idle (Scenario.behind [] Scenario.Healthy))) =
    Ret (Some (ErrWrap Scenario.no_rows "validateLedgerChain: failed to load cur ledger")).
Proof.
  split; [|split].
  - pose proof (validateLedgerChain_spec Scenario.env 101
        (Scenario.idle (Scenario.behind Scenario.broken Scenario.Healthy)))
      as (_ & _ & Hboth & _).
    destruct (Hboth _ _ _ _ eq_refl eq_refl) as [_ Hmis].
    rewrite Hmis; [reflexivity|discriminate].
  - pose proof (validateLedgerChain_spec Scenario.env 101
        (Scenario.idle (Scenario.behind (tl Scenario.linked) Scenario.Healthy)))
      as (_ & Hprev & _).
    rewrite (Hprev _ _ _ _ eq_refl eq_refl). reflexivity.
  - pose proof (validateLedgerChain_spec Scenario.env 101
        (Scenario.idle (Scenario.behind [] Scenario.Healthy)))
      as (Hcur & _).
    rewrite (Hcur _ _ eq_refl). reflexivity.
Defined.

(** C8.  [ReingestAll] is [ReingestRange] on [CoreElder] and [CoreLatest] of
    the ledger state it reads; [ReingestSingle seq] is the error of
    [ReingestRange seq seq]; and [ReingestRange start end] runs one session,
    created over [[start, end]] and switched to clear-existing mode, and
    returns the [Ingested] and [Err] the worker left in it (a panic of the
    worker goes through).  It does so whatever the mutex and the [current]
    slot hold, and leaves both as they are. *)
Theorem Reingest_entry_points (C : Collaborators) (m : Machine) :
  (ReingestAll m =
     let '(ls, w) := CurrentState (world m) in
     prepend [EvCurrentState ls]
       (ReingestRange (CoreElder ls) (CoreLatest ls) (with_world m w))) /\
  (forall seq,
     ReingestSingle seq m =
       (match outcome_of (ReingestRange seq seq m) with
        | Ret r => Ret (snd r)
        | Panic pv => Panic pv
        | Halt r => Halt r
        end,
        final_of (ReingestRange seq seq m),
        events_of (ReingestRange seq seq m))) /\
  (forall start end_,
     let s0 := {| SessionCursor := {| FirstLedger := start; LastLedger := end_ |};
                  ClearExisting := true; Ingested := 0; Err := None |} in
     let s' := fst (fst (SessionRun s0 (world m))) in
     let w' := snd (SessionRun s0 (world m)) in
     ReingestRange start end_ m =
       (match snd (fst (SessionRun s0 (world m))) with
        | None => Ret (Ingested s', Err s')
        | Some pv => Panic pv
        end,
        {| sys := sys m; heap := heap m ++ [s']; world := w' |},
        EvRun (length (heap m)) s0 ::
          match snd (fst (SessionRun s0 (world m))) with
          | None => []
          | Some pv => [EvPanic pv]
          end) /\
     forall y,
       ReingestRange start end_ (set_sys y m) =
         (outcome_of (ReingestRange start end_ m),
          set_sys y (final_of (ReingestRange start end_ m)),
          events_of (ReingestRange start end_ m))).
Proof.
  split; [|split].
  - unfold ReingestAll, bind, currentState.
    by destruct (CurrentState (world m)) as [ls w].
  - intros seq. unfold ReingestSingle, bind.
    destruct (ReingestRange seq seq m) as [[[r|pv|r] m1] ev1]; simpl;
      by rewrite ?app_nil_r.
  - intros start end_ s0 s' w'. split.
    + rewrite ReingestRange_eq. subst s' w'.
      change (set_ClearExisting true (NewSession start end_)) with s0.
      by destruct (SessionRun s0 (world m)) as [[s1 [pv|]] w1].
    + intros y. apply (tame_sys _ (tame_ReingestRange start end_)).
Qed.

(** C3.  The session [newTickSession] builds for the snapshot [ls] starts at
    [CoreElder] when [HistoryLatest] is zero and at [HistoryLatest + 1]
    otherwise (an [int32] sum: the integer [HistoryLatest + 1] below the
    largest [int32]), ends at [CoreLatest], is not in clear-existing mode, and
    has ingested nothing and no error yet; it is the session [Tick] installs
    when the slot is free, and the only one that tick runs. *)
Theorem newTickSession_range (C : Collaborators) (m : Machine) :
  let ls := fst (CurrentState (world m)) in
  let w := snd (CurrentState (world m)) in
  exists s,
    newTickSession m =
      (Ret (length (heap m)),
       {| sys := sys m; heap := heap m ++ [s]; world := w |},
       [EvCurrentState ls]) /\
    (HistoryLatest ls = 0 -> FirstLedger (SessionCursor s) = CoreElder ls) /\
    (HistoryLatest ls <> 0 ->
     FirstLedger (SessionCursor s) = Int32.add (HistoryLatest ls) 1) /\
    (0 < HistoryLatest ls < Int32.max_signed ->
     FirstLedger (SessionCursor s) = HistoryLatest ls + 1) /\
    LastLedger (SessionCursor s) = CoreLatest ls /\
    ClearExisting s = false /\
    Ingested s = 0 /\ Err s = None /\
    (lock (sys m) = false -> current (sys m) = None ->
     exists m' evs,
       Tick m =
         (Ret (Some (length (heap m))), m',
          EvCurrentState ls :: EvInstall (length (heap m)) :: evs) /\
       (forall q s', In (EvRun q s') evs -> q = length (heap m) /\ s' = s)).
Proof.
  intros ls w. subst ls w.
  destruct (CurrentState (world m)) as [ls w] eqn:E1. cbn [fst snd].
  exists (tick_session ls). unfold tick_session at 2 3 4 5 6 7 8; cbn.
  split; [by apply newTickSession_eq|].
  split; [by intros ->|].
  split; [intros Hne; apply Z.eqb_neq in Hne; by rewrite Hne|].
  split.
  { intros [Hpos Hmax]. destruct (Z.eqb_spec (HistoryLatest ls) 0); [lia|].
    apply Int32Facts.succ_no_overflow; [|assumption].
    unfold Int32.in_range, Int32.min_signed, Int32.max_signed in *. lia. }
  split; [reflexivity|]. split; [reflexivity|].
  split; [reflexivity|]. split; [reflexivity|].
  intros Hl Hc. destruct (CurrentState w) as [ls2 w2] eqn:E2.
  rewrite (Tick_idle m ls w ls2 w2 Hl Hc E1 E2). cbv zeta.
  eexists _, _. split; [reflexivity|].
  intros q s' Hin.
  assert (Hin' : In (EvRun q s')
            ([EvCurrentState ls; EvInstall (length (heap m)); EvCurrentState ls2] ++
             events_of (runOnce_body ls2 (Some (length (heap m))) (ticking m ls w2)) ++
             EvRelease ::
               panic_report
                 (outcome_of (runOnce_body ls2 (Some (length (heap m)))
                                (ticking m ls w2)))))
    by (right; right; exact Hin).
  apply Tick_idle_events in Hin'
    as [?|[?|[?|[Hb|[?|(pv & _ & [?|?])]]]]]; try discriminate.
  eapply runOnce_body_runs; [|exact Hb]. apply lookup_snoc.
Qed.

(** Witness of C3: history empty, the tick starts at the elder ledger of
    core; history at 100, it starts at 101. *)
Lemma newTickSession_range_witness :
  (@heap Scenario.env (final_of (@newTickSession Scenario.env
      (Scenario.idle (Scenario.fresh Scenario.Healthy)))) !! 0%nat =
     Some (NewSession 1 100)) /\
  (@heap Scenario.env (final_of (@newTickSession Scenario.env
      (Scenario.idle (Scenario.behind Scenario.linked Scenario.Healthy)))) !! 0%nat =
     Some (NewSession 101 105)).
Proof.
  split.
  - destruct (newTickSession_range Scenario.env
               (Scenario.idle (Scenario.fresh Scenario.Healthy)))
      as (s & -> & H0 & _ & _ & Hlast & Hclear & Hn & Herr & _).
    specialize (H0 eq_refl). destruct s as [[first last] clear n err].
    simpl in *. subst. reflexivity.
  - destruct (newTickSession_range Scenario.env
               (Scenario.idle (Scenario.behind Scenario.linked Scenario.Healthy)))
      as (s & -> & _ & _ & Hnext & Hlast & Hclear & Hn & Herr & _).
    specialize (Hnext ltac:(simpl; unfold Int32.max_signed; lia)).
    destruct s as [[first last] clear n err].
    simpl in *. subst. reflexivity.
Defined.



(** C6, as the code has it.  During a tick the validator is called on the
    first ledger of the session exactly when the range is not empty and its
    first ledger is not the elder ledger of core.  When the validator
    reports an error, the session is not run, the gap is logged, no panic is
    raised and [Tick] returns the untouched session, the slot is released,
    and the next tick finds it free. *)
Theorem Tick_validates_chain (C : Collaborators) (m : Machine) :
  lock (sys m) = false -> current (sys m) = None ->
  let ls1 := fst (CurrentState (world m)) in
  let ls2 := fst (CurrentState (snd (CurrentState (world m)))) in
  let w2 := snd (CurrentState (snd (CurrentState (world m)))) in
  let p := length (heap m) in
  let s := tick_session ls1 in
  let first := FirstLedger (SessionCursor s) in
  let last := LastLedger (SessionCursor s) in
  exists m' evs,
    Tick m = (Ret (Some p), m', evs) /\
    sys m' = idle_sys /\
    (In (EvHeaderBySequence first) evs <-> first <= last /\ first <> CoreElder ls2) /\
    (forall err mv evv,
       first <= last -> first <> CoreElder ls2 ->
       validateLedgerChain first (ticking m ls1 w2) = (Ret (Some err), mv, evv) ->
       (forall q s', ~ In (EvRun q s') evs) /\
       (forall pv, ~ In (EvPanic pv) evs) /\
       In (EvLog (LogLedgerGap first err)) evs /\
       heap m' !! p = Some s /\
       exists m'' evs', Tick m' = (Ret (Some (S p)), m'', evs')).
Proof.
  intros Hl Hc ls1 ls2 w2 p s first last. subst ls1 ls2 w2.
  destruct (CurrentState (world m)) as [ls1 w1] eqn:E1. cbn [fst snd] in *.
  destruct (CurrentState w1) as [ls2 w2] eqn:E2. cbn [fst snd] in *.
  rewrite (Tick_idle m ls1 w1 ls2 w2 Hl Hc E1 E2). cbv zeta. fold p.
  assert (Hp : heap (ticking m ls1 w2) !! p = Some s) by apply lookup_snoc.
  eexists _, _. split; [reflexivity|]. split; [reflexivity|]. split.
  - subst first last.
    rewrite <- (runOnce_body_validates ls2 p (ticking m ls1 w2) s Hp).
    split.
    + intros Hin. apply Tick_idle_events in Hin
        as [?|[?|[?|[Hb|[?|(pv' & _ & [?|?])]]]]]; try discriminate.
      exact Hb.
    + intros Hin. rewrite !in_app_iff. right; left. exact Hin.
  - intros err mv evv Hle Hne Ev.
    destruct (runOnce_body_gap ls2 p _ s err mv evv Hp Hle Hne Ev) as [Hb Hheap].
    subst first last. rewrite Hb. cbn [outcome_of events_of final_of fst snd panic_report].
    split; [|split; [|split; [|split]]].
    + intros q s' Hin. rewrite !in_app_iff in Hin.
      destruct Hin as [[?|[?|[?|[]]]]|[Hin|[?|[]]]]; try discriminate.
      rewrite <- !in_app_iff in Hin.
      by destruct (proj1 (gap_events_quiet ls2 _ err evv _ _ _ _ Ev Hin) q s').
    + intros pv Hin. rewrite !in_app_iff in Hin.
      destruct Hin as [[?|[?|[?|[]]]]|[Hin|[?|[]]]]; try discriminate.
      rewrite <- !in_app_iff in Hin.
      by destruct (proj2 (gap_events_quiet ls2 _ err evv _ _ _ _ Ev Hin) pv).
    + rewrite !in_app_iff. right; left. right; right. by left.
    + cbn [set_sys heap]. rewrite Hheap. exact Hp.
    + assert (Hlen : length (heap (set_sys idle_sys mv)) = S p).
      { cbn [set_sys heap]. rewrite Hheap. cbn [ticking heap].
        rewrite length_app. cbn [length]. subst p. lia. }
      rewrite <- Hlen. by apply Tick_again.
Qed.

(** Witness of C6: history at 100, core at 105, and a header 101 that does
    not link to header 100. *)
Lemma Tick_validates_chain_witness :
  exists m' evs,
    @Tick Scenario.env
      (Scenario.idle (Scenario.behind Scenario.broken Scenario.Healthy)) =
      (Ret (Some 0%nat), m', evs) /\
    In (EvHeaderBySequence 101) evs /\
    (forall q s', ~ In (EvRun q s') evs) /\
    @heap Scenario.env m' !! 0%nat = Some (NewSession 101 105).
Proof.
  destruct (Tick_validates_chain Scenario.env
              (Scenario.idle (Scenario.behind Scenario.broken Scenario.Healthy))
              eq_refl eq_refl)
    as (m' & evs & Ht & _ & Hv & Hgap).
  exists m', evs. split; [exact Ht|]. split.
  - apply Hv. vm_compute. split; discriminate.
  - edestruct Hgap as (Hrun & _ & _ & Hheap & _).
    + vm_compute. discriminate.
    + vm_compute. discriminate.
    + vm_compute. reflexivity.
    + split; [exact Hrun|exact Hheap].
Defined.

(** Counterexample to C6 as stated: history has caught up with core (both at
    100, the elder ledger of core is 1), so the session of the tick starts
    at 101, which differs from the elder ledger, and yet the validator is not
    called: the empty range ends the run before. *)
Lemma Tick_caught_up_skips_validator :
  let m := Scenario.idle Scenario.caught_up in
  let first := FirstLedger (SessionCursor (tick_session (Scenario.st_ledger Scenario.caught_up))) in
  first = 101 /\
  CoreElder (Scenario.st_ledger Scenario.caught_up) = 1 /\
  ~ (In (EvHeaderBySequence first) (events_of (@Tick Scenario.env m)) <->
     first <> CoreElder (Scenario.st_ledger Scenario.caught_up)).
Proof.
  split; [reflexivity|]. split; [reflexivity|].
  intros [_ Hinv]. vm_compute in Hinv.
  destruct Hinv as [?|[?|[?|[?|[]]]]]; discriminate.
Qed.

(** C10.  A tick that finds the slot free returns the pointer to the session
    it installed also when that session was never run, because its range is
    empty or because the validator reported a gap; the session behind the
    pointer is then as [newTickSession] made it, with [Err] nil and
    [Ingested] zero.  A session that was run and came back from the worker
    with nothing ingested and no error is returned in the very same state:
    the value [Tick] returns is the same in the three cases. *)
Theorem Tick_skipped_run_returns_session (C : Collaborators) (m : Machine) :
  lock (sys m) = false -> current (sys m) = None ->
  let ls1 := fst (CurrentState (world m)) in
  let ls2 := fst (CurrentState (snd (CurrentState (world m)))) in
  let w2 := snd (CurrentState (snd (CurrentState (world m)))) in
  let p := length (heap m) in
  let s := tick_session ls1 in
  let first := FirstLedger (SessionCursor s) in
  let last := LastLedger (SessionCursor s) in
  exists m' evs,
    Tick m = (Ret (Some p), m', evs) /\
    Err s = None /\ Ingested s = 0 /\
    (first > last ->
     (forall q s', ~ In (EvRun q s') evs) /\ heap m' !! p = Some s) /\
    (forall err mv evv,
       first <= last -> first <> CoreElder ls2 ->
       validateLedgerChain first (ticking m ls1 w2) = (Ret (Some err), mv, evv) ->
       (forall q s', ~ In (EvRun q s') evs) /\ heap m' !! p = Some s) /\
    (forall w evv w',
       first <= last ->
       (first = CoreElder ls2 /\ w = w2 /\ evv = []) \/
       (first <> CoreElder ls2 /\
        validateLedgerChain first (ticking m ls1 w2) =
          (Ret None, with_world (ticking m ls1 w2) w, evv)) ->
       SessionRun s w = ((s, None), w') ->
       In (EvRun p s) evs /\ heap m' !! p = Some s).
Proof.
  intros Hl Hc ls1 ls2 w2 p s first last. subst ls1 ls2 w2.
  destruct (CurrentState (world m)) as [ls1 w1] eqn:E1. cbn [fst snd] in *.
  destruct (CurrentState w1) as [ls2 w2] eqn:E2. cbn [fst snd] in *.
  rewrite (Tick_idle m ls1 w1 ls2 w2 Hl Hc E1 E2). cbv zeta. fold p.
  assert (Hp : heap (ticking m ls1 w2) !! p = Some s) by apply lookup_snoc.
  eexists _, _. split; [reflexivity|]. split; [reflexivity|]. split; [reflexivity|].
  subst first last. split; [|split].
  - intros Hgt. rewrite (runOnce_body_empty ls2 p _ s Hp Hgt).
    split; [|exact Hp].
    intros q s' Hin. simpl in Hin.
    destruct Hin as [?|[?|[?|[?|[]]]]]; discriminate.
  - intros err mv evv Hle Hne Ev.
    destruct (runOnce_body_gap ls2 p _ s err mv evv Hp Hle Hne Ev) as [Hb Hheap].
    rewrite Hb. cbn [outcome_of events_of final_of fst snd panic_report].
    split.
    + intros q s' Hin. rewrite !in_app_iff in Hin.
      destruct Hin as [[?|[?|[?|[]]]]|[Hin|[?|[]]]]; try discriminate.
      rewrite <- !in_app_iff in Hin.
      by destruct (proj1 (gap_events_quiet ls2 _ err evv _ _ _ _ Ev Hin) q s').
    + cbn [set_sys heap]. rewrite Hheap. exact Hp.
  - intros w evv w' Hle Hrun Hw.
    assert (Hrun' :
      (FirstLedger (SessionCursor s) = CoreElder ls2 /\
       w = world (ticking m ls1 w2) /\ evv = []) \/
      (FirstLedger (SessionCursor s) <> CoreElder ls2 /\
       validateLedgerChain (FirstLedger (SessionCursor s)) (ticking m ls1 w2) =
         (Ret None, with_world (ticking m ls1 w2) w, evv))) by exact Hrun.
    rewrite (runOnce_body_run ls2 p _ s w evv Hp Hle Hrun').
    rewrite (runOnce_import_eq p (with_world (ticking m ls1 w2) w) s Hp).
    cbn [with_world world]. rewrite Hw.
    cbn [prepend outcome_of events_of final_of fst snd panic_report set_sys heap
         with_world ticking Err tick_session NewSession].
    split.
    + rewrite !in_app_iff. right; left. right. by left.
    + subst p. rewrite insert_snoc. apply lookup_snoc.
Qed.

(** Witness of C10: a tick with nothing new to ingest, a tick stopped by a
    broken chain, and a tick whose worker ingests nothing: each returns a
    pointer to a session with [Err] nil and [Ingested] zero. *)
Lemma Tick_skipped_run_returns_session_witness :
  (exists m' evs,
     @Tick Scenario.env (Scenario.idle Scenario.caught_up) = (Ret (Some 0%nat), m', evs) /\
     @heap Scenario.env m' !! 0%nat = Some (NewSession 101 100)) /\
  (exists m' evs,
     @Tick Scenario.env
       (Scenario.idle (Scenario.behind Scenario.broken Scenario.Lazy)) =
       (Ret (Some 0%nat), m', evs) /\
     @heap Scenario.env m' !! 0%nat = Some (NewSession 101 105)) /\
  (exists m' evs,
     @Tick Scenario.env
       (Scenario.idle (Scenario.behind Scenario.linked Scenario.Lazy)) =
       (Ret (Some 0%nat), m', evs) /\
     In (EvRun 0%nat (NewSession 101 105)) evs /\
     @heap Scenario.env m' !! 0%nat = Some (NewSession 101 105)).
Proof.
  split; [|split].
  - destruct (Tick_skipped_run_returns_session Scenario.env
                (Scenario.idle Scenario.caught_up) eq_refl eq_refl)
      as (m' & evs & Ht & _ & _ & Hempty & _).
    exists m', evs. split; [exact Ht|].
    apply Hempty. reflexivity.
  - destruct (Tick_skipped_run_returns_session Scenario.env
                (Scenario.idle (Scenario.behind Scenario.broken Scenario.Lazy))
                eq_refl eq_refl)
      as (m' & evs & Ht & _ & _ & _ & Hgap & _).
    exists m', evs. split; [exact Ht|].
    edestruct Hgap as [_ Hheap]; [| |vm_compute; reflexivity|exact Hheap];
      vm_compute; discriminate.
  - destruct (Tick_skipped_run_returns_session Scenario.env
                (Scenario.idle (Scenario.behind Scenario.linked Scenario.Lazy))
                eq_refl eq_refl)
      as (m' & evs & Ht & _ & _ & _ & _ & Hrun).
    exists m', evs. split; [exact Ht|].
    eapply (Hrun (Scenario.behind Scenario.linked Scenario.Lazy)).
    + vm_compute. discriminate.
    + right. split; [vm_compute; discriminate|]. vm_compute. reflexivity.
    + reflexivity.
Defined.

(** C4, as the code has it.  For an ascending, deduplicated, non-empty list
    of outdated sequence numbers none of which is zero, one turn of the
    draining loop calls [ReingestRange] on the maximal contiguous runs of the
    list, in order, each in clear-existing mode, up to the first call that
    fails: all of them when the turn ends without error.  These runs are the
    only separated runs whose union is the list, and no list of runs with
    that union is shorter. *)
Theorem drain_issues_maximal_runs (C : Collaborators)
    (outdated : list Z) (n : Z) (m : Machine) :
  outdated <> [] ->
  Forall Int32.in_range outdated -> ascending outdated -> ~ In 0 outdated ->
  let rs := RangeCoalescer outdated in
  maximal_runs outdated rs /\
  (forall rs', maximal_runs outdated rs' -> rs' = rs) /\
  (forall rs', run_cover outdated rs' -> (length rs <= length rs')%nat) /\
  drain outdated n m =
    prepend [EvLog (LogReingestOutdated (List.hd 0 outdated) (length outdated))]
      (flushes rs n m) /\
  ranges_run (events_of (drain outdated n m)) `prefix_of` rs /\
  (forall p s, In (EvRun p s) (events_of (drain outdated n m)) -> ClearExisting s = true) /\
  (forall n',
     outcome_of (drain outdated n m) = Ret (n', None) ->
     ranges_run (events_of (drain outdated n m)) = rs).
Proof.
  intros Hne Hr Hasc H0 rs.
  pose proof (RangeCoalescer_maximal outdated Hasc) as Hmax.
  rewrite (drain_flushes outdated n m Hne Hr Hasc H0). fold rs.
  split; [exact Hmax|]. split.
  { intros rs' Hrs'. by apply (maximal_runs_unique outdated). }
  split.
  { intros rs' Hrs'. by apply (maximal_runs_minimal outdated). }
  split; [reflexivity|].
  rewrite events_prepend, outcome_prepend, ranges_run_app. cbn [ranges_run flat_map app].
  split; [apply flushes_prefix|]. split.
  - intros p s [?|Hin]; [discriminate|]. by apply (flushes_sessions rs n m p s).
  - intros n'. apply flushes_complete.
Qed.

(** Witness of C4: the outdated ledgers 5, 6, 7, 10, 11 and 15. *)
Lemma drain_issues_maximal_runs_witness :
  ranges_run (events_of (@drain Scenario.env [5; 6; 7; 10; 11; 15] 0
      (Scenario.idle (Scenario.stale [5; 6; 7; 10; 11; 15])))) =
    [(5, 7); (10, 11); (15, 15)].
Proof.
  assert (Hne : [5; 6; 7; 10; 11; 15] <> []) by discriminate.
  assert (Hr : Forall Int32.in_range [5; 6; 7; 10; 11; 15])
    by (repeat constructor; cbv [Int32.in_range Int32.min_signed Int32.max_signed]; lia).
  assert (Hasc : ascending [5; 6; 7; 10; 11; 15]) by (repeat constructor; lia).
  assert (H0 : ~ In 0 [5; 6; 7; 10; 11; 15]) by (simpl; lia).
  destruct (drain_issues_maximal_runs Scenario.env [5; 6; 7; 10; 11; 15] 0
              (Scenario.idle (Scenario.stale [5; 6; 7; 10; 11; 15])) Hne Hr Hasc H0)
    as (_ & _ & _ & _ & _ & _ & Hall).
  exact (Hall 6 eq_refl).
Defined.

(** Counterexample to C4 as stated: on the ascending list 0, 1 the turn ends
    without error after the single call [ReingestRange(1, 1)], and [[1, 1]]
    is not the list of maximal runs of 0, 1, which is [[0, 1]]. *)
Lemma drain_zero_one_not_maximal :
  let outdated := [0; 1] in
  let r := @drain Scenario.env outdated 0 (Scenario.idle (Scenario.stale outdated)) in
  ascending outdated /\
  outcome_of r = Ret (1, None) /\
  ranges_run (events_of r) = [(1, 1)] /\
  maximal_runs outdated [(0, 1)] /\
  ~ maximal_runs outdated (ranges_run (events_of r)).
Proof.
  split; [repeat constructor; lia|].
  split; [reflexivity|]. split; [reflexivity|]. split.
  - split; [constructor; lia|]. intros x. unfold covers. simpl. split.
    + intros Hx. exists (0, 1). simpl. split; [by left|lia].
    + intros (r & [<-|[]] & Hx). simpl in Hx. lia.
  - intros [_ Hcov]. destruct (proj1 (Hcov 0) ltac:(by left)) as (r & [<-|[]] & Hx).
    simpl in Hx. lia.
Qed.

(** C9, as the code has it.  The inner loop takes [start == 0] for "no run
    is open": with [start] zero the next element opens a run.  So a turn of
    the draining loop coalesces as specified when all sequence numbers are at
    least 1; and on an ascending list of two or more elements that begins
    with 0, the 0 is dropped: the turn does what it does on the rest of the
    list, and no session it runs starts at or below 0.  The list that holds
    0 alone is flushed as the run [[0, 0]]. *)
Theorem scan_zero_sentinel (C : Collaborators) (n : Z) (m : Machine) :
  (forall seq rest end_, scan (seq :: rest) 0 end_ n = scan rest seq seq n) /\
  (forall outdated,
     outdated <> [] ->
     Forall Int32.in_range outdated -> ascending outdated ->
     Forall (fun x => 1 <= x) outdated ->
     drain outdated n m =
       prepend [EvLog (LogReingestOutdated (List.hd 0 outdated) (length outdated))]
         (flushes (RangeCoalescer outdated) n m)) /\
  (forall x rest,
     Forall Int32.in_range (0 :: x :: rest) -> ascending (0 :: x :: rest) ->
     drain (0 :: x :: rest) n m =
       prepend [EvLog (LogReingestOutdated 0 (S (S (length rest))))]
         (flushes (RangeCoalescer (x :: rest)) n m) /\
     forall p s,
       In (EvRun p s) (events_of (drain (0 :: x :: rest) n m)) ->
       0 < FirstLedger (SessionCursor s)) /\
  drain [0] n m = prepend [EvLog (LogReingestOutdated 0 1)] (flush 0 0 n m).
Proof.
  split; [reflexivity|]. split; [|split].
  - intros outdated Hne Hr Hasc Hpos. apply drain_flushes; try assumption.
    rewrite List.Forall_forall in Hpos. intros Hin. specialize (Hpos _ Hin). lia.
  - intros x rest Hr Hasc.
    rewrite (drain_zero_then x rest n m Hr Hasc). split; [reflexivity|].
    intros p s. rewrite events_prepend. intros [?|Hin]; [discriminate|].
    apply flushes_sessions in Hin as [Hin _].
    apply StronglySorted_inv in Hasc as [Hasc Hall].
    apply Forall_inv in Hall as Hlt.
    pose proof (coalesce_from_lower rest x x 0 Hlt Hasc ltac:(lia)) as Hlow.
    rewrite List.Forall_forall in Hlow. exact (Hlow _ Hin).
  - rewrite drain_leading_zero. cbn [scan length]. by rewrite bind_ret_l.
Qed.

(** Witness of C9: the outdated ledgers 0, 1, 2 and 4. *)
Lemma scan_zero_sentinel_witness :
  ranges_run (events_of (@drain Scenario.env [0; 1; 2; 4] 0
      (Scenario.idle (Scenario.stale [0; 1; 2; 4])))) = [(1, 2); (4, 4)] /\
  ranges_run (events_of (@drain Scenario.env [1; 2; 4] 0
      (Scenario.idle (Scenario.stale [1; 2; 4])))) = [(1, 2); (4, 4)].
Proof.
  destruct (scan_zero_sentinel Scenario.env 0 (Scenario.idle (Scenario.stale [0; 1; 2; 4])))
    as (_ & _ & Hzero & _).
  destruct (scan_zero_sentinel Scenario.env 0 (Scenario.idle (Scenario.stale [1; 2; 4])))
    as (_ & Hpos & _).
  split.
  - destruct (Hzero 1 [2; 4]) as [-> _].
    + repeat constructor; cbv [Int32.in_range Int32.min_signed Int32.max_signed]; lia.
    + repeat constructor; lia.
    + reflexivity.
  - rewrite (Hpos [1; 2; 4]).
    + reflexivity.
    + discriminate.
    + repeat constructor; cbv [Int32.in_range Int32.min_signed Int32.max_signed]; lia.
    + repeat constructor; lia.
    + repeat constructor; lia.
Defined.

(** Counterexample to C9 as stated: the list that holds 0 alone begins with
    0, and the turn calls [ReingestRange(0, 0)]: a session over [[0, 0]] is
    run. *)
Lemma drain_lone_zero_is_flushed :
  let r := @drain Scenario.env [0] 0 (Scenario.idle (Scenario.stale [0])) in
  ranges_run (events_of r) = [(0, 0)] /\
  ~ (forall p s,
       In (EvRun p s) (events_of r) ->
       ~ (FirstLedger (SessionCursor s) <= 0 <= LastLedger (SessionCursor s))).
Proof.
  split; [reflexivity|].
  intros Hnever.
  apply (Hnever 0%nat (set_ClearExisting true (NewSession 0 0))).
  - vm_compute. tauto.
  - simpl. lia.
Qed.



(** * More on the code *)

(** ** One turn of the draining loop, for every list *)

Section TurnFacts.
Context `{Collaborators}.

Local Arguments flush : simpl never.

(** The inner loop and the flush after it do what [flushes] does on the
    ranges of [code_runs_from], whatever the list. *)
Lemma scan_code_runs rest : forall start end_ n m,
  bind (scan rest start end_ n) last_flush m =
  flushes (code_runs_from start end_ rest) n m.
Proof.
  induction rest as [|x rest IH]; intros start end_ n m.
  - cbn [scan code_runs_from]. rewrite bind_ret_l. cbn [last_flush].
    by rewrite flushes_one.
  - cbn [scan code_runs_from].
    destruct (start =? 0); [apply IH|].
    destruct (x =? Int32.add end_ 1); [apply IH|].
    rewrite bind_assoc. cbn [flushes fst snd]. unfold bind at 1 3.
    destruct (flush start end_ n m) as [[[f|pv|r] m1] ev1]; try reflexivity.
    f_equal. destruct (snd f) as [err|].
    + by rewrite bind_ret_l.
    + apply IH.
Qed.

Lemma drain_code_runs (outdated : list Z) n (m : Machine) :
  drain outdated n m =
    prepend [EvLog (LogReingestOutdated (List.hd 0 outdated) (length outdated))]
      (flushes (code_runs outdated) n m).
Proof.
  unfold drain, log. unfold bind at 1. cbn [emit]. f_equal.
  apply scan_code_runs.
Qed.

Lemma code_runs_from_nonempty l : forall s e, code_runs_from s e l <> [].
Proof.
  induction l as [|x l IH]; intros s e; cbn [code_runs_from]; [discriminate|].
  destruct (s =? 0); [apply IH|]. destruct (x =? Int32.add e 1); [apply IH|].
  discriminate.
Qed.

Lemma flushes_runs_first r rs n (m : Machine) :
  (1 <= runs_in (events_of (flushes (r :: rs) n m)))%nat.
Proof.
  unfold runs_in. cbn [flushes]. unfold bind.
  pose proof (flush_ranges (fst r) (snd r) n m) as Hf.
  destruct (flush (fst r) (snd r) n m) as [[[f|pv|hr] m1] ev1];
    cbn [events_of snd] in *.
  - rewrite events_prepend, ranges_run_app, Hf. cbn [app length]. lia.
  - rewrite Hf. cbn [length]. lia.
  - rewrite Hf. cbn [length]. lia.
Qed.

Lemma code_runs_from_length l : forall s e,
  (length (code_runs_from s e l) <= S (length l))%nat.
Proof.
  induction l as [|x l IH]; intros s e; cbn [code_runs_from length]; [lia|].
  destruct (s =? 0); [specialize (IH x x); lia|].
  destruct (x =? Int32.add e 1); [specialize (IH s x); lia|].
  cbn [length]. specialize (IH x x). lia.
Qed.

Lemma code_runs_from_ends l : forall s e r,
  In r (code_runs_from s e l) ->
  (fst r = s \/ In (fst r) l) /\ (snd r = e \/ In (snd r) l).
Proof.
  induction l as [|x l IH]; intros s e r; cbn [code_runs_from].
  - intros [<-|[]]. by split; left.
  - destruct (s =? 0).
    { intros Hin. destruct (IH _ _ _ Hin) as [[->|?] [->|?]]; simpl; auto. }
    destruct (x =? Int32.add e 1).
    { intros Hin. destruct (IH _ _ _ Hin) as [[->|?] [->|?]]; simpl; auto. }
    intros [<-|Hin]; [by split; left|].
    destruct (IH _ _ _ Hin) as [[->|?] [->|?]]; simpl; auto.
Qed.

Lemma code_runs_from_last l : forall s e d,
  snd (List.last (code_runs_from s e l) d) = List.last l e.
Proof.
  induction l as [|x l IH]; intros s e d; cbn [code_runs_from]; [reflexivity|].
  assert (Hl : List.last (x :: l) e = List.last l x).
  { clear. revert x e. induction l as [|y l IH]; intros x e; [reflexivity|].
    change (List.last (x :: y :: l) e) with (List.last (y :: l) e).
    rewrite (IH y e). symmetry. exact (IH y x). }
  rewrite Hl.
  destruct (s =? 0); [apply IH|]. destruct (x =? Int32.add e 1); [apply IH|].
  pose proof (code_runs_from_nonempty l x x) as Hne.
  destruct (code_runs_from x x l) as [|r rs] eqn:E; [done|].
  change (List.last ((s, e) :: r :: rs) d) with (List.last (r :: rs) d).
  rewrite <- E. apply IH.
Qed.

(** On an ascending list the ranges hold nothing but elements of the list,
    and every element but the sentinel. *)
Lemma code_runs_from_sound l : forall s e x,
  ascending (e :: l) -> s <= e ->
  Int32.in_range e -> Forall Int32.in_range l ->
  covers (code_runs_from s e l) x -> s <= x <= e \/ In x l.
Proof.
  induction l as [|y l IH]; intros s e x Hasc Hse He Hr; cbn [code_runs_from].
  - rewrite covers_cons. intros [Hx|Hx]; [by left|by destruct (covers_nil x)].
  - apply StronglySorted_inv in Hasc as [Hasc Hall].
    apply Forall_inv in Hall as Hlt.
    apply Forall_cons_iff in Hr as [Hy Hr].
    rewrite Int32Facts.add_small by (unfold Int32.in_range in *; lia).
    destruct (s =? 0).
    { intros Hc. destruct (IH y y x Hasc ltac:(lia) Hy Hr Hc); [right; left; lia|by right; right]. }
    destruct (Z.eqb_spec y (e + 1)).
    { intros Hc. destruct (IH s y x Hasc ltac:(lia) Hy Hr Hc) as [Hx|Hx];
        [|by right; right].
      destruct (Z.eq_dec x y); [right; left; lia|left; lia]. }
    rewrite covers_cons. intros [Hx|Hc]; [by left|].
    destruct (IH y y x Hasc ltac:(lia) Hy Hr Hc); [right; left; lia|by right; right].
Qed.

Lemma code_runs_from_complete l : forall s e x,
  ascending (e :: l) -> s <= e ->
  Int32.in_range e -> Forall Int32.in_range l ->
  x <> 0 ->
  (s <> 0 /\ s <= x <= e) \/ In x l ->
  covers (code_runs_from s e l) x.
Proof.
  induction l as [|y l IH]; intros s e x Hasc Hse He Hr Hx0; cbn [code_runs_from].
  - intros [[_ Hx]|[]]. apply covers_cons. by left.
  - apply StronglySorted_inv in Hasc as [Hasc Hall].
    apply Forall_inv in Hall as Hlt.
    apply Forall_cons_iff in Hr as [Hy Hr].
    rewrite Int32Facts.add_small by (unfold Int32.in_range in *; lia).
    destruct (Z.eqb_spec s 0) as [Hs|Hs].
    { intros [[? _]|[<-|Hin]]; [done| |].
      - apply (IH y y y Hasc ltac:(lia) Hy Hr Hx0). left. lia.
      - apply (IH y y x Hasc ltac:(lia) Hy Hr Hx0). by right. }
    destruct (Z.eqb_spec y (e + 1)).
    { intros [[_ Hx]|[<-|Hin]].
      - apply (IH s y x Hasc ltac:(lia) Hy Hr Hx0). left. lia.
      - apply (IH s y y Hasc ltac:(lia) Hy Hr Hx0). left. lia.
      - apply (IH s y x Hasc ltac:(lia) Hy Hr Hx0). by right. }
    rewrite covers_cons. intros [[_ Hx]|[<-|Hin]].
    + by left.
    + right. apply (IH y y y Hasc ltac:(lia) Hy Hr Hx0). left. lia.
    + right. apply (IH y y x Hasc ltac:(lia) Hy Hr Hx0). by right.
Qed.

Lemma code_runs_from_ordered l : forall s e,
  ascending (e :: l) -> s <= e ->
  Int32.in_range e -> Forall Int32.in_range l ->
  Forall (fun r => fst r <= snd r) (code_runs_from s e l).
Proof.
  induction l as [|y l IH]; intros s e Hasc Hse He Hr; cbn [code_runs_from].
  - by repeat constructor.
  - apply StronglySorted_inv in Hasc as [Hasc Hall].
    apply Forall_inv in Hall as Hlt.
    apply Forall_cons_iff in Hr as [Hy Hr].
    destruct (s =? 0); [apply IH; try assumption; lia|].
    destruct (y =? Int32.add e 1); [apply IH; try assumption; lia|].
    constructor; [assumption|]. apply IH; try assumption. lia.
Qed.
End TurnFacts.

(** X1.  For every list the outdated query may return, one turn of the
    draining loop is the log line followed by [ReingestRange] on the ranges
    the list alone determines ([code_runs]), in order, up to the first call
    that fails: the world and the sessions decide where the series stops,
    never which ranges are in it.  A turn makes at least one call. *)
Theorem drain_calls_depend_on_list (C : Collaborators)
    (outdated : list Z) (n : Z) (m : Machine) :
  drain outdated n m =
    prepend [EvLog (LogReingestOutdated (List.hd 0 outdated) (length outdated))]
      (flushes (code_runs outdated) n m) /\
  ranges_run (events_of (drain outdated n m)) `prefix_of` code_runs outdated /\
  (forall n',
     outcome_of (drain outdated n m) = Ret (n', None) ->
     ranges_run (events_of (drain outdated n m)) = code_runs outdated) /\
  (1 <= runs_in (events_of (drain outdated n m)))%nat.
Proof.
  rewrite drain_code_runs. split; [reflexivity|].
  rewrite events_prepend, outcome_prepend. unfold runs_in.
  rewrite ranges_run_app. cbn [ranges_run flat_map app].
  split; [apply flushes_prefix|]. split; [apply flushes_complete|].
  pose proof (code_runs_from_nonempty outdated 0 0) as Hne.
  unfold code_runs. destruct (code_runs_from 0 0 outdated) as [|r rs]; [done|].
  apply flushes_runs_first.
Qed.

(** Witness of X1: the list 0, 0, 5, 3 (neither ascending nor
    deduplicated) is drained by two calls. *)
Lemma drain_calls_depend_on_list_witness :
  ranges_run (events_of (@drain Scenario.env [0; 0; 5; 3] 0
      (Scenario.idle (Scenario.stale [0; 0; 5; 3])))) = [(5, 5); (3, 3)].
Proof.
  destruct (drain_calls_depend_on_list Scenario.env [0; 0; 5; 3] 0
              (Scenario.idle (Scenario.stale [0; 0; 5; 3]))) as (_ & _ & Hall & _).
  rewrite (Hall 2 eq_refl). reflexivity.
Defined.

(** X2.  A turn that ends without error on a non-empty list has called
    [ReingestRange] at most once per element of the list; the start and the
    end of every call are elements of the list; and the last call ends at the
    last element. *)
Theorem drain_calls_within_list (C : Collaborators)
    (outdated : list Z) (n n' : Z) (m : Machine) :
  outdated <> [] ->
  outcome_of (drain outdated n m) = Ret (n', None) ->
  let rs := ranges_run (events_of (drain outdated n m)) in
  (1 <= length rs <= length outdated)%nat /\
  (forall r, In r rs -> In (fst r) outdated /\ In (snd r) outdated) /\
  snd (List.last rs (0, 0)) = List.last outdated 0.
Proof.
  intros Hne Hok rs.
  pose proof (drain_code_runs outdated n m) as Hd. subst rs.
  rewrite Hd in *. rewrite outcome_prepend in Hok.
  rewrite events_prepend, ranges_run_app. cbn [ranges_run flat_map app].
  rewrite (flushes_complete _ _ _ _ Hok).
  destruct outdated as [|x rest]; [done|].
  unfold code_runs. cbn [code_runs_from]. rewrite Z.eqb_refl.
  split; [|split].
  - pose proof (code_runs_from_length rest x x).
    pose proof (code_runs_from_nonempty rest x x).
    destruct (code_runs_from x x rest); [done|]. cbn [length] in *. lia.
  - intros r Hin. destruct (code_runs_from_ends _ _ _ _ Hin) as [[->|?] [->|?]];
      split; simpl; auto.
  - rewrite code_runs_from_last.
    clear. revert x. induction rest as [|y l IH]; intros x; [reflexivity|].
    change (List.last (x :: y :: l) 0) with (List.last (y :: l) 0).
    rewrite <- (IH y). clear IH. revert x y.
    induction l as [|z l IH]; intros x y; [reflexivity|].
    change (List.last (y :: z :: l) x) with (List.last (z :: l) x).
    change (List.last (y :: z :: l) y) with (List.last (z :: l) y).
    rewrite (IH x z). symmetry. apply IH.
Qed.

(** Witness of X2: the unsorted list 7, 3, 4, 9 is drained by three calls. *)
Lemma drain_calls_within_list_witness :
  let rs := ranges_run (events_of (@drain Scenario.env [7; 3; 4; 9] 0
              (Scenario.idle (Scenario.stale [7; 3; 4; 9])))) in
  rs = [(7, 7); (3, 4); (9, 9)] /\
  (1 <= length rs <= 4)%nat /\
  snd (List.last rs (0, 0)) = 9.
Proof.
  destruct (drain_calls_within_list Scenario.env [7; 3; 4; 9] 0 4
              (Scenario.idle (Scenario.stale [7; 3; 4; 9]))
              ltac:(discriminate) eq_refl) as (Hlen & _ & Hlast).
  split; [reflexivity|]. split; [exact Hlen|exact Hlast].
Defined.

(** X3.  On an ascending, deduplicated list, a turn that ends without error
    has reingested nothing that was not outdated, and every outdated ledger
    but possibly ledger 0: each call is a non-empty range of which every
    ledger is in the list, and every ledger of the list other than 0 lies in
    the range of some call. *)
Theorem drain_covers_all_but_zero (C : Collaborators)
    (outdated : list Z) (n n' : Z) (m : Machine) :
  outdated <> [] ->
  Forall Int32.in_range outdated -> ascending outdated ->
  outcome_of (drain outdated n m) = Ret (n', None) ->
  let rs := ranges_run (events_of (drain outdated n m)) in
  Forall (fun r => fst r <= snd r) rs /\
  (forall x, covers rs x -> In x outdated) /\
  (forall x, In x outdated -> x <> 0 -> covers rs x).
Proof.
  intros Hne Hr Hasc Hok rs.
  pose proof (drain_code_runs outdated n m) as Hd. subst rs.
  rewrite Hd in *. rewrite outcome_prepend in Hok.
  rewrite events_prepend, ranges_run_app. cbn [ranges_run flat_map app].
  rewrite (flushes_complete _ _ _ _ Hok).
  destruct outdated as [|y rest]; [done|].
  apply Forall_cons_iff in Hr as [Hy Hr].
  unfold code_runs. cbn [code_runs_from]. rewrite Z.eqb_refl.
  split; [|split].
  - apply code_runs_from_ordered; try assumption. lia.
  - intros x Hc.
    destruct (code_runs_from_sound rest y y x Hasc ltac:(lia) Hy Hr Hc);
      [left; lia|by right].
  - intros x [<-|Hin] Hx0.
    + apply code_runs_from_complete; try assumption; [lia|]. left. lia.
    + apply code_runs_from_complete; try assumption; [lia|]. by right.
Qed.

(** Witness of X3: ledger 0 is lost, ledgers 1, 2 and 4 are not. *)
Lemma drain_covers_all_but_zero_witness :
  let rs := ranges_run (events_of (@drain Scenario.env [0; 1; 2; 4] 0
              (Scenario.idle (Scenario.stale [0; 1; 2; 4])))) in
  covers rs 1 /\ covers rs 2 /\ covers rs 4 /\ ~ covers rs 0.
Proof.
  assert (Hr : Forall Int32.in_range [0; 1; 2; 4])
    by (repeat constructor; cbv [Int32.in_range Int32.min_signed Int32.max_signed]; lia).
  assert (Hasc : ascending [0; 1; 2; 4]) by (repeat constructor; lia).
  destruct (drain_covers_all_but_zero Scenario.env [0; 1; 2; 4] 0 3
              (Scenario.idle (Scenario.stale [0; 1; 2; 4]))
              ltac:(discriminate) Hr Hasc eq_refl) as (_ & _ & Hall).
  split; [|split; [|split]].
  - apply Hall; [simpl; lia|lia].
  - apply Hall; [simpl; lia|lia].
  - apply Hall; [simpl; lia|lia].
  - intros (r & Hin & Hx). vm_compute in Hin.
    destruct Hin as [<-|[<-|[]]]; simpl in Hx; lia.
Defined.

(** ** The draining loop as a whole *)

Section LoopFacts.
Context `{Collaborators}.

Local Arguments flush : simpl never.
Local Arguments drain : simpl never.

Lemma sum_ingested_app n ss1 ss2 :
  sum_ingested n (ss1 ++ ss2) = sum_ingested (sum_ingested n ss1) ss2.
Proof. unfold sum_ingested. apply fold_left_app. Qed.

(** What a flush that returns leaves behind: one more session on the heap,
    counted if and only if it has no error. *)
Lemma flush_account start end_ n (m : Machine) n' err m' ev :
  flush start end_ n m = (Ret (n', err), m', ev) ->
  exists s',
    heap m' = heap m ++ [s'] /\ sys m' = sys m /\ Err s' = err /\
    n' = match err with None => Int.add n (Ingested s') | Some _ => n end.
Proof.
  rewrite flush_eq.
  destruct (SessionRun _ (world m)) as [[s' [pv|]] w]; [discriminate|].
  intros [= Hr <- _]. exists s'. cbn [heap sys].
  destruct (Err s') as [e|]; injection Hr as <- <-; auto.
Qed.

(** The sessions a returning series of flushes leaves on the heap: those
    that succeeded, all counted, then at most the one that failed. *)
Lemma flushes_account rs : forall n (m : Machine) n' err m' ev,
  flushes rs n m = (Ret (n', err), m', ev) ->
  exists ok bad,
    heap m' = heap m ++ ok ++ bad /\ sys m' = sys m /\
    Forall (fun s => Err s = None) ok /\
    n' = sum_ingested n ok /\
    match err with
    | None => bad = []
    | Some e => exists b, bad = [b] /\ Err b = Some e
    end.
Proof.
  induction rs as [|r rs IH]; intros n m n' err m' ev; cbn [flushes].
  - intros [= <- <- <- _]. exists [], []. rewrite app_nil_r. by repeat split.
  - unfold bind.
    destruct (flush (fst r) (snd r) n m) as [[[f|pv|hr] m1] ev1] eqn:Ef;
      try discriminate.
    destruct f as [n1 err1].
    apply flush_account in Ef as (s' & Hh & Hs & He & Hn).
    cbn [snd fst]. destruct err1 as [e|].
    + intros [= <- <- <- _]. exists [], [s']. cbn [app].
      repeat split; try assumption; [constructor|]. by exists s'.
    + destruct (flushes rs n1 m1) as [[o m2] ev2] eqn:Efs. cbn [prepend].
      intros [= -> -> _].
      apply IH in Efs as (ok & bad & Hh2 & Hs2 & Hok & Hn2 & Hbad).
      exists (s' :: ok), bad. rewrite Hh2, Hh, Hs2, Hs, <- !app_assoc.
      repeat split; try assumption; [by constructor|].
      rewrite Hn2, Hn. reflexivity.
Qed.

Lemma ReingestOutdated_from_account fuel : forall n (m : Machine) n' err m' ev,
  ReingestOutdated_from fuel n m = (Ret (n', err), m', ev) ->
  exists ok bad,
    heap m' = heap m ++ ok ++ bad /\ sys m' = sys m /\
    Forall (fun s => Err s = None) ok /\
    n' = sum_ingested n ok /\
    (err = None -> bad = []) /\
    (bad <> [] -> exists b e, bad = [b] /\ Err b = Some e /\ err = Some e).
Proof.
  induction fuel as [|fuel IH]; intros n m n' err m' ev;
    cbn [ReingestOutdated_from]; [discriminate|].
  unfold bind at 1, oldestOutdatedLedgers.
  destruct (OldestOutdatedLedgers CurrentVersion (world m)) as [[l|e|pv] w];
    cbn [prepend]; try discriminate.
  - destruct (length l =? 0)%nat.
    { cbn. intros [= <- <- <- _]. exists [], []. rewrite app_nil_r. by repeat split. }
    unfold bind. rewrite drain_code_runs.
    destruct (flushes (code_runs l) n (with_world m w)) as [[[f|pv|hr] m1] ev1] eqn:Ef;
      cbn [prepend]; try discriminate.
    destruct f as [n1 err1].
    apply flushes_account in Ef as (ok & bad & Hh & Hs & Hok & Hn & Hbad).
    cbn [snd fst]. destruct err1 as [e|].
    + cbn. intros [= <- <- <- _]. destruct Hbad as (b & -> & Hb).
      exists ok, [b]. repeat split; try assumption; [discriminate|].
      intros _. by exists b, e.
    + subst bad.
      destruct (ReingestOutdated_from fuel n1 m1) as [[o m2] ev2] eqn:El.
      cbn [prepend]. intros [= -> -> _].
      apply IH in El as (ok2 & bad2 & Hh2 & Hs2 & Hok2 & Hn2 & Hnone & Hsome).
      exists (ok ++ ok2), bad2.
      rewrite Hh2, Hh, Hs2, Hs, app_nil_r, <- !app_assoc.
      repeat split; try assumption.
      * by apply Forall_app.
      * by rewrite sum_ingested_app, <- Hn.
  - cbn. intros [= <- <- <- _]. exists [], []. rewrite app_nil_r.
    by repeat split.
Qed.

(** In worlds [P] where the query always finds outdated ledgers and every
    session comes back without error, every series of flushes succeeds and
    stays in [P]. *)
Lemma flushes_stay (P : World -> Prop) :
  (forall s w, P w -> Err s = None ->
     exists s' w', SessionRun s w = ((s', None), w') /\ Err s' = None /\ P w') ->
  forall rs n (m : Machine),
    P (world m) ->
    exists n' m' ev, flushes rs n m = (Ret (n', None), m', ev) /\ P (world m').
Proof.
  intros Hrun. induction rs as [|r rs IH]; intros n m HP; cbn [flushes].
  - by exists n, m, [].
  - unfold bind. rewrite flush_eq.
    destruct (Hrun (set_ClearExisting true (NewSession (fst r) (snd r))) _ HP eq_refl)
      as (s' & w' & -> & -> & HP').
    cbn [snd fst].
    destruct (IH (Int.add n (Ingested s'))
                {| sys := sys m; heap := heap m ++ [s']; world := w' |} HP')
      as (n' & m' & ev & -> & HP'').
    cbn [prepend]. by eexists _, _, _.
Qed.

Lemma ReingestOutdated_from_spins (P : World -> Prop) :
  (forall w, P w ->
     exists l w', OldestOutdatedLedgers CurrentVersion w = (Ok l, w') /\
                  l <> [] /\ P w') ->
  (forall s w, P w -> Err s = None ->
     exists s' w', SessionRun s w = ((s', None), w') /\ Err s' = None /\ P w') ->
  forall fuel n (m : Machine),
    P (world m) ->
    outcome_of (ReingestOutdated_from fuel n m) = Halt OutOfFuel.
Proof.
  intros Hq Hrun. induction fuel as [|fuel IH]; intros n m HP;
    cbn [ReingestOutdated_from]; [reflexivity|].
  destruct (Hq _ HP) as (l & w & Eq & Hne & HPw).
  unfold bind at 1, oldestOutdatedLedgers. rewrite Eq.
  destruct l as [|x l]; [done|]. cbn [length Nat.eqb].
  rewrite outcome_prepend. unfold bind. rewrite drain_code_runs.
  destruct (flushes_stay P Hrun (code_runs (x :: l)) n (with_world m w) HPw)
    as (n' & m' & ev & -> & HP').
  cbn [prepend snd fst]. rewrite outcome_prepend. by apply IH.
Qed.

(** *** What reingestion leaves alone *)

Lemma tame_ReingestAll : tame ReingestAll.
Proof.
  unfold ReingestAll. apply tame_bind; [apply tame_currentState|].
  intros ls. apply tame_ReingestRange.
Qed.

Lemma tame_ReingestSingle seq : tame (ReingestSingle seq).
Proof.
  unfold ReingestSingle. apply tame_bind; [apply tame_ReingestRange|].
  intros r. apply tame_ret.
Qed.

Lemma flushes_events rs : forall n (m : Machine) e,
  In e (events_of (flushes rs n m)) ->
  (exists p s, e = EvRun p s /\ ClearExisting s = true) \/ (exists pv, e = EvPanic pv).
Proof.
  induction rs as [|r rs IH]; intros n m e; cbn [flushes]; [intros []|].
  unfold bind.
  assert (Hf : forall e, In e (events_of (flush (fst r) (snd r) n m)) ->
             (exists p s, e = EvRun p s /\ ClearExisting s = true) \/
             (exists pv, e = EvPanic pv)).
  { intros e'. rewrite flush_eq.
    destruct (SessionRun _ (world m)) as [[s' [pv|]] w]; simpl;
      intros Hin; repeat (destruct Hin as [<-|Hin]; [eauto|]); contradiction. }
  destruct (flush (fst r) (snd r) n m) as [[[f|pv|hr] m1] ev1];
    cbn [events_of snd] in *; try apply Hf.
  rewrite events_prepend, in_app_iff. intros [Hin|Hin]; [by apply Hf|].
  destruct (snd f); [destruct Hin|]. by eapply IH.
Qed.

Lemma ReingestOutdated_from_events fuel : forall n (m : Machine) e,
  In e (events_of (ReingestOutdated_from fuel n m)) ->
  e = EvOutdatedLedgers CurrentVersion \/
  (exists lowest size, e = EvLog (LogReingestOutdated lowest size)) \/
  (exists p s, e = EvRun p s /\ ClearExisting s = true) \/
  (exists pv, e = EvPanic pv).
Proof.
  induction fuel as [|fuel IH]; intros n m e; cbn [ReingestOutdated_from];
    [intros []|].
  unfold bind at 1, oldestOutdatedLedgers.
  destruct (OldestOutdatedLedgers CurrentVersion (world m)) as [[l|err|pv] w].
  - rewrite events_prepend. intros [<-|Hin]; [by left|].
    destruct (length l =? 0)%nat; [destruct Hin|].
    revert Hin. unfold bind. rewrite drain_code_runs.
    destruct (flushes (code_runs l) n (with_world m w)) as [[[f|pv|hr] m1] ev1] eqn:Ef;
      cbn [prepend events_of snd].
    + pose proof (fun e => flushes_events (code_runs l) n (with_world m w) e) as Hf.
      rewrite Ef in Hf. cbn [events_of snd] in Hf.
      destruct (snd f).
      * cbn. rewrite app_nil_r. intros [<-|Hin]; [eauto 6|].
        destruct (Hf _ Hin); auto.
      * rewrite events_prepend. intros [<-|Hin]; [eauto 6|].
        apply in_app_iff in Hin as [Hin|Hin]; [destruct (Hf _ Hin); auto|].
        by eapply IH.
    + pose proof (fun e => flushes_events (code_runs l) n (with_world m w) e) as Hf.
      rewrite Ef in Hf. cbn [events_of snd] in Hf.
      intros [<-|Hin]; [eauto 6|]. destruct (Hf _ Hin); auto.
    + pose proof (fun e => flushes_events (code_runs l) n (with_world m w) e) as Hf.
      rewrite Ef in Hf. cbn [events_of snd] in Hf.
      intros [<-|Hin]; [eauto 6|]. destruct (Hf _ Hin); auto.
  - cbn. intros [<-|[]]. by left.
  - cbn. intros [<-|[<-|[]]]; eauto 6.
Qed.

(** *** A panic ends the call *)

Lemma bind_panic_last {A B} (c : M A) (k : A -> M B) :
  tame c ->
  (forall m pv, In (EvPanic pv) (events_of (c m)) ->
     exists before, events_of (c m) = before ++ [EvPanic pv]) ->
  (forall a m pv, In (EvPanic pv) (events_of (k a m)) ->
     exists before, events_of (k a m) = before ++ [EvPanic pv]) ->
  forall m pv, In (EvPanic pv) (events_of (bind c k m)) ->
    exists before, events_of (bind c k m) = before ++ [EvPanic pv].
Proof.
  intros Hc Hlast Hk m pv. unfold bind.
  pose proof (tame_panic c Hc m pv) as Hp. specialize (Hlast m pv).
  destruct (c m) as [[[a|p|r] m1] ev1]; cbn [events_of outcome_of fst snd] in *;
    try exact Hlast.
  rewrite events_prepend, in_app_iff. intros [Hin|Hin]; [by specialize (Hp Hin)|].
  destruct (Hk a m1 pv Hin) as [before ->].
  exists (ev1 ++ before). by rewrite app_assoc.
Qed.

Lemma flush_panic_last start end_ n (m : Machine) pv :
  In (EvPanic pv) (events_of (flush start end_ n m)) ->
  exists before, events_of (flush start end_ n m) = before ++ [EvPanic pv].
Proof.
  rewrite flush_eq.
  destruct (SessionRun _ (world m)) as [[s' [pv'|]] w]; simpl.
  - intros [?|[[= ->]|[]]]; [discriminate|]. by eexists [_].
  - intros [?|[]]. discriminate.
Qed.

Lemma flushes_panic_last rs : forall n (m : Machine) pv,
  In (EvPanic pv) (events_of (flushes rs n m)) ->
  exists before, events_of (flushes rs n m) = before ++ [EvPanic pv].
Proof.
  induction rs as [|r rs IH]; intros n m pv; cbn [flushes]; [intros []|].
  apply bind_panic_last.
  - apply tame_flush.
  - intros m0 pv0. apply flush_panic_last.
  - intros f m0 pv0. destruct (snd f); [intros []|apply IH].
Qed.

Lemma tame_flushes rs : forall n, tame (flushes rs n).
Proof.
  induction rs as [|r rs IH]; intros n; cbn [flushes]; [apply tame_ret|].
  apply tame_bind; [apply tame_flush|].
  intros f. destruct (snd f); [apply tame_ret|apply IH].
Qed.

Lemma ReingestOutdated_from_panic_last fuel : forall n (m : Machine) pv,
  In (EvPanic pv) (events_of (ReingestOutdated_from fuel n m)) ->
  exists before,
    events_of (ReingestOutdated_from fuel n m) = before ++ [EvPanic pv].
Proof.
  induction fuel as [|fuel IH]; intros n m pv; cbn [ReingestOutdated_from];
    [intros []|].
  apply bind_panic_last.
  - apply tame_oldestOutdatedLedgers.
  - intros m0 pv0. unfold oldestOutdatedLedgers.
    destruct (OldestOutdatedLedgers CurrentVersion (world m0)) as [[l|err|pv'] w]; simpl.
    + intros [?|[]]. discriminate.
    + intros [?|[]]. discriminate.
    + intros [?|[[= ->]|[]]]; [discriminate|]. by eexists [_].
  - intros [l|err] m0 pv0; [|intros []].
    destruct (length l =? 0)%nat; [intros []|].
    apply bind_panic_last.
    + apply tame_drain.
    + intros m1 pv1. rewrite drain_code_runs, events_prepend.
      intros [?|Hin]; [discriminate|].
      destruct (flushes_panic_last _ _ _ _ Hin) as [before ->].
      by exists (EvLog (LogReingestOutdated (List.hd 0 l) (length l)) :: before).
    + intros r m1 pv1. destruct (snd r); [intros []|apply IH].
Qed.
End LoopFacts.

(** X4.  When [ReingestOutdated] returns, the sessions it ran are on the
    heap behind the objects that were there, which it does not touch; all of
    them but possibly the last came back without error, and the count it
    returns is the sum of their [Ingested].  A session that came back with
    an error is the last one, its error is the error returned, and its
    [Ingested] is not counted; with a nil error every session succeeded. *)
Theorem ReingestOutdated_accounts (C : Collaborators)
    (fuel : nat) (m : Machine) (n : Z) (err : option error) (m' : Machine)
    (ev : list event) :
  ReingestOutdated fuel m = (Ret (n, err), m', ev) ->
  exists ok bad,
    heap m' = heap m ++ ok ++ bad /\
    Forall (fun s => Err s = None) ok /\
    n = sum_ingested 0 ok /\
    (err = None -> bad = []) /\
    (bad <> [] -> exists b e, bad = [b] /\ Err b = Some e /\ err = Some e).
Proof.
  unfold ReingestOutdated. intros Hr.
  apply ReingestOutdated_from_account in Hr
    as (ok & bad & Hh & _ & Hok & Hn & Hnone & Hsome).
  by exists ok, bad.
Qed.

(** Witness of X4: a healthy worker on the outdated ledgers 5, 6, 7, 10
    and 11 (two sessions, five ledgers counted), and a worker that fails on
    the first range (nothing counted). *)
Lemma ReingestOutdated_accounts_witness :
  (exists ok bad,
     @heap Scenario.env (final_of (@ReingestOutdated Scenario.env 2
         (Scenario.idle (Scenario.stale [5; 6; 7; 10; 11])))) = [] ++ ok ++ bad /\
     Forall (fun s => Err s = None) ok /\
     5 = sum_ingested 0 ok /\
     (@None error = None -> bad = []) /\
     (bad <> [] -> exists b e, bad = [b] /\ Err b = Some e /\ None = Some e)) /\
  (exists ok bad,
     @heap Scenario.env (final_of (@ReingestOutdated Scenario.env 2
         (Scenario.idle (failing_store [5; 6; 7; 10; 11])))) = [] ++ ok ++ bad /\
     Forall (fun s => Err s = None) ok /\
     0 = sum_ingested 0 ok /\
     (Some (ErrExternal "ingest failed") = None -> bad = []) /\
     (bad <> [] ->
      exists b e, bad = [b] /\ Err b = Some e /\
                  Some (ErrExternal "ingest failed") = Some e)).
Proof.
  split.
  - exact (ReingestOutdated_accounts Scenario.env 2
             (Scenario.idle (Scenario.stale [5; 6; 7; 10; 11])) _ _ _ _ eq_refl).
  - exact (ReingestOutdated_accounts Scenario.env 2
             (Scenario.idle (failing_store [5; 6; 7; 10; 11])) _ _ _ _ eq_refl).
Defined.

(** X5.  The loop of [ReingestOutdated] has no bound of its own: in worlds
    that the collaborators do not leave, where the query always returns some
    outdated ledgers and every session handed over without an error comes
    back without error and without panic, [ReingestOutdated] does not
    return, however many turns it is given. *)
Theorem ReingestOutdated_never_returns (C : Collaborators) (P : World -> Prop) :
  (forall w, P w ->
     exists l w', OldestOutdatedLedgers CurrentVersion w = (Ok l, w') /\
                  l <> [] /\ P w') ->
  (forall s w, P w -> Err s = None ->
     exists s' w', SessionRun s w = ((s', None), w') /\ Err s' = None /\ P w') ->
  forall (fuel : nat) (m : Machine),
    P (world m) ->
    outcome_of (ReingestOutdated fuel m) = Halt OutOfFuel.
Proof.
  intros Hq Hrun fuel m HP. unfold ReingestOutdated.
  by apply (ReingestOutdated_from_spins P).
Qed.

(** Witness of X5: a worker that comes back at once without having
    reingested anything. *)
Lemma ReingestOutdated_never_returns_witness :
  outcome_of (@ReingestOutdated Scenario.env 1000 (Scenario.idle stuck_store)) =
    Halt OutOfFuel.
Proof.
  apply (ReingestOutdated_never_returns Scenario.env (fun w => w = stuck_store)).
  - intros w ->. exists [3; 4; 5], stuck_store.
    split; [reflexivity|]. split; [discriminate|reflexivity].
  - intros s w -> Hs. exists s, stuck_store.
    split; [reflexivity|]. split; [exact Hs|reflexivity].
  - reflexivity.
Defined.

(** X6.  The three reingestion entry points of the loop family stay out of
    the tick's way: [ReingestOutdated], [ReingestAll] and [ReingestSingle]
    do the same whatever the mutex and the [current] slot hold, and leave
    both as they found them, so a session installed by a tick stays
    installed while they run. *)
Theorem reingestion_ignores_scheduler (C : Collaborators)
    (fuel : nat) (seq : Z) (m : Machine) (y : System) :
  ReingestOutdated fuel (set_sys y m) =
    (outcome_of (ReingestOutdated fuel m),
     set_sys y (final_of (ReingestOutdated fuel m)),
     events_of (ReingestOutdated fuel m)) /\
  ReingestAll (set_sys y m) =
    (outcome_of (ReingestAll m), set_sys y (final_of (ReingestAll m)),
     events_of (ReingestAll m)) /\
  ReingestSingle seq (set_sys y m) =
    (outcome_of (ReingestSingle seq m), set_sys y (final_of (ReingestSingle seq m)),
     events_of (ReingestSingle seq m)) /\
  sys (final_of (ReingestOutdated fuel m)) = sys m /\
  sys (final_of (ReingestAll m)) = sys m /\
  sys (final_of (ReingestSingle seq m)) = sys m.
Proof.
  unfold ReingestOutdated.
  pose proof (tame_ReingestOutdated_from fuel 0) as Ho.
  pose proof tame_ReingestAll as Ha.
  pose proof (tame_ReingestSingle seq) as Hs.
  repeat split.
  - apply (tame_sys _ Ho).
  - apply (tame_sys _ Ha).
  - apply (tame_sys _ Hs).
  - by apply tame_final_sys.
  - by apply tame_final_sys.
  - by apply tame_final_sys.
Qed.

(** X7.  [ReingestOutdated] reaches its collaborators only through the
    outdated query and the session worker: it looks up no header, so no
    range it reingests is checked by [validateLedgerChain], and it does not
    read the ledger state.  It has no [recover]: a panic raised by the query
    or by a session is the outcome of the call, and nothing happens after
    it. *)
Theorem ReingestOutdated_only_queries_and_runs (C : Collaborators)
    (fuel : nat) (m : Machine) :
  (forall e,
     In e (events_of (ReingestOutdated fuel m)) ->
     e = EvOutdatedLedgers CurrentVersion \/
     (exists lowest size, e = EvLog (LogReingestOutdated lowest size)) \/
     (exists p s, e = EvRun p s /\ ClearExisting s = true) \/
     (exists pv, e = EvPanic pv)) /\
  (forall pv,
     In (EvPanic pv) (events_of (ReingestOutdated fuel m)) ->
     outcome_of (ReingestOutdated fuel m) = Panic pv /\
     exists before, events_of (ReingestOutdated fuel m) = before ++ [EvPanic pv]).
Proof.
  unfold ReingestOutdated. split.
  - apply ReingestOutdated_from_events.
  - intros pv Hin. split.
    + by apply (tame_panic _ (tame_ReingestOutdated_from fuel 0)).
    + by apply ReingestOutdated_from_panic_last.
Qed.

(** Witness of X7: the worker panics on the first range. *)
Lemma ReingestOutdated_only_queries_and_runs_witness :
  outcome_of (@ReingestOutdated Scenario.env 3
      (Scenario.idle (panicking_store [3; 4; 9]))) =
    Panic (PanicMsg "index out of range") /\
  runs_in (events_of (@ReingestOutdated Scenario.env 3
      (Scenario.idle (panicking_store [3; 4; 9])))) = 1%nat.
Proof.
  destruct (ReingestOutdated_only_queries_and_runs Scenario.env 3
              (Scenario.idle (panicking_store [3; 4; 9]))) as [_ Hpanic].
  destruct (Hpanic (PanicMsg "index out of range")) as [Ho _].
  - vm_compute. tauto.
  - split; [exact Ho|reflexivity].
Defined.

(** ** More on the tick *)

Section MoreTickFacts.
Context `{Collaborators}.

Local Arguments runOnce_body : simpl never.
Local Arguments runOnce : simpl never.
Local Arguments validateLedgerChain : simpl never.

(** The body of [runOnce] writes to no object but the session it found. *)
Lemma runOnce_body_heap ls p (m : Machine) s :
  heap m !! p = Some s ->
  exists s', heap (final_of (runOnce_body ls (Some p) m)) = <[p := s']> (heap m).
Proof.
  intros Hp.
  destruct (runOnce_body_shape ls p m s Hp) as
    [Hgt ->|err w evv Hle Hne Ev ->|pv w evv Hle Hne Ev ->|w evv Hle Hrun ->];
    try (exists s; cbn [final_of fst snd with_world heap];
         symmetry; by apply list_insert_id).
  rewrite final_prepend, (runOnce_import_eq p (with_world m w) s Hp).
  destruct (SessionRun s (world (with_world m w))) as [[s' [pv|]] w'];
    by exists s'.
Qed.

Lemma Tick_idle_heap (m : Machine) :
  lock (sys m) = false -> current (sys m) = None ->
  exists s',
    heap (final_of (Tick m)) = heap m ++ [s'] /\
    sys (final_of (Tick m)) = idle_sys /\
    outcome_of (Tick m) = Ret (Some (length (heap m))).
Proof.
  intros Hl Hc.
  destruct (CurrentState (world m)) as [ls1 w1] eqn:E1.
  destruct (CurrentState w1) as [ls2 w2] eqn:E2.
  rewrite (Tick_idle m ls1 w1 ls2 w2 Hl Hc E1 E2). cbv zeta.
  destruct (runOnce_body_heap ls2 (length (heap m)) (ticking m ls1 w2)
              (tick_session ls1) (lookup_snoc _ _)) as [s' Hh].
  exists s'. cbn [final_of outcome_of fst snd set_sys heap sys].
  rewrite Hh. cbn [ticking heap]. by rewrite insert_snoc.
Qed.

Lemma ranges_run_quiet evs :
  (forall q s, ~ In (EvRun q s) evs) -> ranges_run evs = [].
Proof.
  induction evs as [|e evs IH]; intros Hq; [reflexivity|].
  cbn [ranges_run flat_map]. fold (ranges_run evs).
  rewrite IH by (intros q s Hin; apply (Hq q s); by right).
  destruct e; try reflexivity. destruct (Hq p s). by left.
Qed.

Lemma validateLedgerChain_no_run seq (m : Machine) :
  ranges_run (events_of (validateLedgerChain seq m)) = [].
Proof.
  apply ranges_run_quiet. intros q s Hin.
  apply validateLedgerChain_events in Hin as [?|[?|[? ?]]]; discriminate.
Qed.

Lemma history_empty_log_no_run ls first :
  ranges_run (history_empty_log ls first) = [].
Proof. unfold history_empty_log. by destruct (HistoryLatest ls =? 0). Qed.

Lemma panic_report_no_run {A} (o : Outcome A) : ranges_run (panic_report o) = [].
Proof. by destruct o. Qed.

Lemma runOnce_import_run_once p (m : Machine) s :
  heap m !! p = Some s ->
  ranges_run (events_of (runOnce_import p m)) =
    [(FirstLedger (SessionCursor s), LastLedger (SessionCursor s))].
Proof.
  intros Hp. rewrite (runOnce_import_eq p m s Hp).
  destruct (SessionRun s (world m)) as [[s' [pv|]] w]; [reflexivity|].
  by destruct (Err s').
Qed.

Lemma runOnce_body_runs_once ls p (m : Machine) s :
  heap m !! p = Some s ->
  (length (ranges_run (events_of (runOnce_body ls (Some p) m))) <= 1)%nat.
Proof.
  intros Hp.
  destruct (runOnce_body_shape ls p m s Hp) as
    [Hgt ->|err w evv Hle Hne Ev ->|pv w evv Hle Hne Ev ->|w evv Hle Hrun ->].
  - cbn. lia.
  - pose proof (validateLedgerChain_no_run (FirstLedger (SessionCursor s)) m) as Hv.
    rewrite Ev in Hv. cbn [events_of snd] in *.
    rewrite !ranges_run_app, history_empty_log_no_run, Hv. cbn. lia.
  - pose proof (validateLedgerChain_no_run (FirstLedger (SessionCursor s)) m) as Hv.
    rewrite Ev in Hv. cbn [events_of snd] in *.
    rewrite !ranges_run_app, history_empty_log_no_run, Hv. cbn. lia.
  - rewrite events_prepend, !ranges_run_app, history_empty_log_no_run.
    rewrite (runOnce_import_run_once p (with_world m w) s Hp).
    destruct Hrun as [(_ & _ & ->)|[_ Ev]]; [cbn; lia|].
    pose proof (validateLedgerChain_no_run (FirstLedger (SessionCursor s)) m) as Hv.
    rewrite Ev in Hv. cbn [events_of snd] in Hv. rewrite Hv. cbn. lia.
Qed.
End MoreTickFacts.

(** X8.  A tick that finds the slot free allocates one session object and
    writes to no other: the heap it leaves is the heap it found followed by
    the new session, and the pointer it returns is the address of that
    session.  The tick after it allocates the next object and leaves the
    first session as it was: a session is never used for two ticks. *)
Theorem Tick_allocates_one_session (C : Collaborators) (m : Machine) :
  lock (sys m) = false -> current (sys m) = None ->
  exists s1 s2,
    heap (final_of (Tick m)) = heap m ++ [s1] /\
    outcome_of (Tick m) = Ret (Some (length (heap m))) /\
    heap (final_of (Tick (final_of (Tick m)))) = heap m ++ [s1; s2] /\
    outcome_of (Tick (final_of (Tick m))) = Ret (Some (S (length (heap m)))).
Proof.
  intros Hl Hc.
  destruct (Tick_idle_heap m Hl Hc) as (s1 & Hh1 & Hs1 & Ho1).
  destruct (Tick_idle_heap (final_of (Tick m))) as (s2 & Hh2 & _ & Ho2);
    [by rewrite Hs1..|].
  exists s1, s2. rewrite Hh2, Ho2, Hh1, <- app_assoc, length_app.
  repeat split; try assumption. cbn [length]. do 2 f_equal. lia.
Qed.

(** Witness of X8: two ticks of a healthy worker, the second of which finds
    history caught up. *)
Lemma Tick_allocates_one_session_witness :
  @heap Scenario.env
    (final_of (@Tick Scenario.env
       (final_of (@Tick Scenario.env (Scenario.idle (Scenario.fresh Scenario.Healthy)))))) =
    [ {| SessionCursor := {| FirstLedger := 1; LastLedger := 100 |};
         ClearExisting := false; Ingested := 100; Err := None |};
      NewSession 101 100 ].
Proof.
  destruct (Tick_allocates_one_session Scenario.env
              (Scenario.idle (Scenario.fresh Scenario.Healthy)) eq_refl eq_refl)
    as (s1 & s2 & _ & _ & Hh & _).
  rewrite Hh. vm_compute in Hh. injection Hh as <- <-. reflexivity.
Defined.

(** X9.  A tick runs at most one session and does not retry it.  When it
    runs the session, the object behind the pointer it returns and the world
    are as the worker left them, also when the worker panicked half-way; an
    error the worker left in [Err] is logged as a failed import session, and
    a panic of the worker is reported to Sentry instead, the [Err] of the
    session not being looked at. *)
Theorem Tick_runs_session_once (C : Collaborators) (m : Machine) :
  lock (sys m) = false -> current (sys m) = None ->
  let ls1 := fst (CurrentState (world m)) in
  let ls2 := fst (CurrentState (snd (CurrentState (world m)))) in
  let w2 := snd (CurrentState (snd (CurrentState (world m)))) in
  let p := length (heap m) in
  let s := tick_session ls1 in
  let first := FirstLedger (SessionCursor s) in
  let last := LastLedger (SessionCursor s) in
  (runs_in (events_of (Tick m)) <= 1)%nat /\
  forall w evv s' opv w',
    first <= last ->
    (first = CoreElder ls2 /\ w = w2 /\ evv = []) \/
    (first <> CoreElder ls2 /\
     validateLedgerChain first (ticking m ls1 w2) =
       (Ret None, with_world (ticking m ls1 w2) w, evv)) ->
    SessionRun s w = ((s', opv), w') ->
    runs_in (events_of (Tick m)) = 1%nat /\
    heap (final_of (Tick m)) !! p = Some s' /\
    world (final_of (Tick m)) = w' /\
    match opv with
    | None =>
        forall e, Err s' = Some e <-> In (EvLog (LogSessionFailed e)) (events_of (Tick m))
    | Some pv =>
        In (EvSentry (ErrFromPanic pv)) (events_of (Tick m)) /\
        forall e, ~ In (EvLog (LogSessionFailed e)) (events_of (Tick m))
    end.
Proof.
  intros Hl Hc ls1 ls2 w2 p s first last. subst ls1 ls2 w2.
  destruct (CurrentState (world m)) as [ls1 w1] eqn:E1. cbn [fst snd] in *.
  destruct (CurrentState w1) as [ls2 w2] eqn:E2. cbn [fst snd] in *.
  rewrite (Tick_idle m ls1 w1 ls2 w2 Hl Hc E1 E2). cbv zeta. fold p.
  assert (Hp : heap (ticking m ls1 w2) !! p = Some s) by apply lookup_snoc.
  cbn [events_of final_of fst snd]. unfold runs_in.
  split.
  { rewrite !ranges_run_app. cbn [ranges_run flat_map app].
    fold (ranges_run (panic_report
      (outcome_of (runOnce_body ls2 (Some p) (ticking m ls1 w2))))).
    rewrite panic_report_no_run, app_nil_r.
    by apply (runOnce_body_runs_once ls2 p _ s). }
  intros w evv s' opv w' Hle Hrun Hw. subst first last.
  assert (Hrun' :
    (FirstLedger (SessionCursor s) = CoreElder ls2 /\
     w = world (ticking m ls1 w2) /\ evv = []) \/
    (FirstLedger (SessionCursor s) <> CoreElder ls2 /\
     validateLedgerChain (FirstLedger (SessionCursor s)) (ticking m ls1 w2) =
       (Ret None, with_world (ticking m ls1 w2) w, evv))) by exact Hrun.
  assert (Hevv : ranges_run evv = [] /\
                 forall e, ~ In (EvLog (LogSessionFailed e)) evv).
  { destruct Hrun' as [(_ & _ & ->)|[_ Ev]]; [split; [reflexivity|intros e []]|].
    pose proof (validateLedgerChain_no_run (FirstLedger (SessionCursor s))
                  (ticking m ls1 w2)) as Hv.
    pose proof (fun e => validateLedgerChain_events (FirstLedger (SessionCursor s))
                  (ticking m ls1 w2) e) as Hin.
    rewrite Ev in Hv, Hin. cbn [events_of snd] in *. split; [exact Hv|].
    intros e He. destruct (Hin _ He) as [?|[?|[? ?]]]; discriminate. }
  destruct Hevv as [Hevv Hnolog].
  assert (Hhist : forall e, ~ In (EvLog (LogSessionFailed e))
                    (history_empty_log ls2 (FirstLedger (SessionCursor s)))).
  { intros e He. apply history_empty_log_events in He. discriminate. }
  rewrite (runOnce_body_run ls2 p _ s w evv Hp Hle Hrun').
  rewrite (runOnce_import_eq p (with_world (ticking m ls1 w2) w) s Hp).
  cbn [with_world world]. rewrite Hw.
  destruct opv as [pv|];
    cbn [prepend outcome_of events_of final_of fst snd panic_report set_sys heap
         world with_world ticking].
  - rewrite !ranges_run_app, history_empty_log_no_run, Hevv.
    split; [reflexivity|]. split; [subst p; rewrite insert_snoc; apply lookup_snoc|].
    split; [reflexivity|]. split.
    + rewrite !in_app_iff. right. right. simpl. auto.
    + intros e. rewrite !in_app_iff. simpl.
      intros [[?|[?|[?|[]]]]|[[[Hin|Hin]|[?|[?|[]]]]|[?|[?|[?|[]]]]]];
        try discriminate; [by apply (Hhist e)|by apply (Hnolog e)].
  - rewrite !ranges_run_app, history_empty_log_no_run, Hevv.
    split; [by destruct (Err s')|].
    split; [subst p; rewrite insert_snoc; apply lookup_snoc|].
    split; [reflexivity|]. intros e. rewrite !in_app_iff. split.
    + intros ->. right. left. right. simpl. auto.
    + intros [[?|[?|[?|[]]]]|[[[Hin|Hin]|Hin]|[?|[]]]]; try discriminate.
      * by destruct (Hhist e).
      * by destruct (Hnolog e).
      * destruct Hin as [?|Hin]; [discriminate|].
        destruct (Err s') as [e'|]; [|destruct Hin].
        destruct Hin as [[= ->]|[]]. reflexivity.
Qed.

(** Witness of X9: the first ingestion with a worker that fails, and with a
    worker that panics. *)
Lemma Tick_runs_session_once_witness :
  In (EvLog (LogSessionFailed (ErrExternal "ingest failed")))
     (events_of (@Tick Scenario.env (Scenario.idle (Scenario.fresh Scenario.Failing)))) /\
  In (EvSentry (ErrFromPanic (PanicMsg "index out of range")))
     (events_of (@Tick Scenario.env (Scenario.idle (Scenario.fresh Scenario.Panicking)))).
Proof.
  split.
  - destruct (Tick_runs_session_once Scenario.env
                (Scenario.idle (Scenario.fresh Scenario.Failing)) eq_refl eq_refl)
      as [_ Hrun].
    edestruct (Hrun (Scenario.fresh Scenario.Failing) []) as (_ & _ & _ & Hlog).
    + vm_compute. discriminate.
    + left. repeat split; reflexivity.
    + reflexivity.
    + apply Hlog. reflexivity.
  - destruct (Tick_runs_session_once Scenario.env
                (Scenario.idle (Scenario.fresh Scenario.Panicking)) eq_refl eq_refl)
      as [_ Hrun].
    edestruct (Hrun (Scenario.fresh Scenario.Panicking) []) as (_ & _ & _ & Hsentry).
    + vm_compute. discriminate.
    + left. repeat split; reflexivity.
    + reflexivity.
    + exact (proj1 Hsentry).
Defined.

(** The predecessor of the successor, wrap-around included. *)
Lemma int32_pred_succ a : Int32.in_range a -> Int32.sub (Int32.add a 1) 1 = a.
Proof.
  unfold Int32.in_range, Int32.min_signed, Int32.max_signed. intros Ha.
  destruct (Z.eq_dec a (2 ^ 31 - 1)) as [->|Hne]; [reflexivity|].
  rewrite (Int32Facts.add_small a 1)
    by (unfold Int32.in_range, Int32.min_signed, Int32.max_signed; lia).
  rewrite Int32Facts.sub_small
    by (unfold Int32.in_range, Int32.min_signed, Int32.max_signed; lia).
  lia.
Qed.

(** X10.  When history is not empty and has caught up with core
    ([CoreLatest <= HistoryLatest], below the largest [int32]), a tick is a
    no-op that takes the slot and gives it back: it reads the ledger state
    twice, installs a session over the empty range
    [[HistoryLatest + 1, CoreLatest]] and releases it; it looks up no header,
    runs no session, logs nothing, and leaves the stores as they are. *)
Theorem Tick_caught_up_is_noop (C : Collaborators) (m : Machine) :
  lock (sys m) = false -> current (sys m) = None ->
  let ls1 := fst (CurrentState (world m)) in
  let ls2 := fst (CurrentState (snd (CurrentState (world m)))) in
  let w2 := snd (CurrentState (snd (CurrentState (world m)))) in
  let p := length (heap m) in
  0 < HistoryLatest ls1 < Int32.max_signed ->
  CoreLatest ls1 <= HistoryLatest ls1 ->
  Tick m =
    (Ret (Some p),
     {| sys := idle_sys;
        heap := heap m ++ [NewSession (HistoryLatest ls1 + 1) (CoreLatest ls1)];
        world := w2 |},
     [EvCurrentState ls1; EvInstall p; EvCurrentState ls2; EvRelease]).
Proof.
  intros Hl Hc ls1 ls2 w2 p. subst ls1 ls2 w2.
  destruct (CurrentState (world m)) as [ls1 w1] eqn:E1. cbn [fst snd] in *.
  destruct (CurrentState w1) as [ls2 w2] eqn:E2. cbn [fst snd] in *.
  intros [Hpos Hmax] Hcaught.
  rewrite (Tick_idle m ls1 w1 ls2 w2 Hl Hc E1 E2). cbv zeta. fold p.
  assert (Hs : tick_session ls1 = NewSession (HistoryLatest ls1 + 1) (CoreLatest ls1)).
  { unfold tick_session. destruct (Z.eqb_spec (HistoryLatest ls1) 0); [lia|].
    rewrite Int32Facts.succ_no_overflow; [reflexivity| |assumption].
    unfold Int32.in_range, Int32.min_signed, Int32.max_signed in *. lia. }
  rewrite (runOnce_body_empty ls2 p (ticking m ls1 w2) (tick_session ls1)).
  - unfold ticking. rewrite Hs. reflexivity.
  - apply lookup_snoc.
  - rewrite Hs. cbn. lia.
Qed.

(** Witness of X10: core and history both at 100. *)
Lemma Tick_caught_up_is_noop_witness :
  events_of (@Tick Scenario.env (Scenario.idle Scenario.caught_up)) =
    [EvCurrentState {| CoreElder := 1; CoreLatest := 100; HistoryLatest := 100 |};
     EvInstall 0%nat;
     EvCurrentState {| CoreElder := 1; CoreLatest := 100; HistoryLatest := 100 |};
     EvRelease].
Proof.
  rewrite (Tick_caught_up_is_noop Scenario.env (Scenario.idle Scenario.caught_up)
             eq_refl eq_refl).
  - reflexivity.
  - cbn. unfold Int32.max_signed. lia.
  - cbn. lia.
Defined.

(** X11.  When a tick validates the chain, it checks the first new ledger
    against the latest ledger of history: with a non-empty history the
    second header the validator loads is that of [HistoryLatest] (also when
    [HistoryLatest + 1] wraps around), and when both headers are found the
    session is run if and only if the [PrevHash] of ledger
    [HistoryLatest + 1] is the [LedgerHash] of ledger [HistoryLatest]. *)
Theorem Tick_ingests_iff_linked (C : Collaborators) (m : Machine) :
  lock (sys m) = false -> current (sys m) = None ->
  let ls1 := fst (CurrentState (world m)) in
  let ls2 := fst (CurrentState (snd (CurrentState (world m)))) in
  let w2 := snd (CurrentState (snd (CurrentState (world m)))) in
  let first := Int32.add (HistoryLatest ls1) 1 in
  HistoryLatest ls1 <> 0 -> Int32.in_range (HistoryLatest ls1) ->
  first <= CoreLatest ls1 -> first <> CoreElder ls2 ->
  forall cur w3 prev w4,
    LedgerHeaderBySequence first w2 = (Ok cur, w3) ->
    LedgerHeaderBySequence (HistoryLatest ls1) w3 = (Ok prev, w4) ->
    In (EvHeaderBySequence (HistoryLatest ls1)) (events_of (Tick m)) /\
    ((exists q s', In (EvRun q s') (events_of (Tick m))) <->
     PrevHash cur = LedgerHash prev).
Proof.
  intros Hl Hc ls1 ls2 w2 first. subst ls1 ls2 w2 first.
  destruct (CurrentState (world m)) as [ls1 w1] eqn:E1. cbn [fst snd] in *.
  destruct (CurrentState w1) as [ls2 w2] eqn:E2. cbn [fst snd] in *.
  intros Hne Hr Hle Hel cur w3 prev w4 Ecur Eprev.
  rewrite (Tick_idle m ls1 w1 ls2 w2 Hl Hc E1 E2). cbv zeta.
  set (p := length (heap m)). set (s := tick_session ls1).
  assert (Hp : heap (ticking m ls1 w2) !! p = Some s) by apply lookup_snoc.
  assert (Hfirst : FirstLedger (SessionCursor s) = Int32.add (HistoryLatest ls1) 1).
  { subst s. unfold tick_session. apply Z.eqb_neq in Hne. by rewrite Hne. }
  assert (Hlast : LastLedger (SessionCursor s) = CoreLatest ls1) by reflexivity.
  assert (Ev : validateLedgerChain (FirstLedger (SessionCursor s)) (ticking m ls1 w2) =
            (Ret (if String.eqb (PrevHash cur) (LedgerHash prev) then None
                  else Some (ErrNew "cur and prev ledger hashes don't match")),
             with_world (ticking m ls1 w2) w4,
             [EvHeaderBySequence (Int32.add (HistoryLatest ls1) 1);
              EvHeaderBySequence (HistoryLatest ls1)])).
  { rewrite validateLedgerChain_cases, Hfirst. cbn [ticking world].
    by rewrite Ecur, (int32_pred_succ _ Hr), Eprev. }
  cbn [events_of snd].
  destruct (String.eqb_spec (PrevHash cur) (LedgerHash prev)) as [Heq|Hneq].
  - assert (Hrange : FirstLedger (SessionCursor s) <= LastLedger (SessionCursor s))
      by (rewrite Hfirst, Hlast; lia).
    assert (Hnel : FirstLedger (SessionCursor s) <> CoreElder ls2)
      by (rewrite Hfirst; lia).
    rewrite (runOnce_body_run ls2 p _ s w4
               [EvHeaderBySequence (Int32.add (HistoryLatest ls1) 1);
                EvHeaderBySequence (HistoryLatest ls1)] Hp Hrange
               (or_intror (conj Hnel Ev))).
    rewrite events_prepend. split.
    + rewrite !in_app_iff. right. left. left. right. simpl. auto.
    + split; [by intros _|intros _]. exists p, s.
      rewrite !in_app_iff. right. left. right.
      by apply (runOnce_import_runs p (with_world (ticking m ls1 w2) w4) s).
  - destruct (runOnce_body_gap ls2 p _ s _ _ _ Hp
                ltac:(rewrite Hfirst, Hlast; lia) ltac:(rewrite Hfirst; lia) Ev)
      as [Hb _].
    rewrite Hb. cbn [events_of outcome_of fst snd panic_report]. split.
    + rewrite !in_app_iff. right. left. right. left. simpl. auto.
    + split; [|by intros Heq]. intros (q & s' & Hin). exfalso.
      rewrite !in_app_iff in Hin.
      destruct Hin as [[?|[?|[?|[]]]]|[Hin|[?|[]]]]; try discriminate.
      rewrite <- !in_app_iff in Hin.
      by destruct (proj1 (gap_events_quiet ls2 _ _ _ _ _ _ _ Ev Hin) q s').
Qed.

(** Witness of X11: history at 100, core at 105, once with a header 101 that
    links to header 100 and once with one that does not. *)
Lemma Tick_ingests_iff_linked_witness :
  (exists q s', In (EvRun q s')
     (events_of (@Tick Scenario.env
        (Scenario.idle (Scenario.behind Scenario.linked Scenario.Healthy))))) /\
  ~ (exists q s', In (EvRun q s')
     (events_of (@Tick Scenario.env
        (Scenario.idle (Scenario.behind Scenario.broken Scenario.Healthy))))).
Proof.
  assert (Hr : Int32.in_range 100)
    by (cbv [Int32.in_range Int32.min_signed Int32.max_signed]; lia).
  split.
  - edestruct (Tick_ingests_iff_linked Scenario.env
                 (Scenario.idle (Scenario.behind Scenario.linked Scenario.Healthy))
                 eq_refl eq_refl) as [_ Hiff].
    + discriminate.
    + exact Hr.
    + vm_compute. discriminate.
    + vm_compute. discriminate.
    + reflexivity.
    + reflexivity.
    + apply Hiff. reflexivity.
  - edestruct (Tick_ingests_iff_linked Scenario.env
                 (Scenario.idle (Scenario.behind Scenario.broken Scenario.Healthy))
                 eq_refl eq_refl) as [_ Hiff].
    + discriminate.
    + exact Hr.
    + vm_compute. discriminate.
    + vm_compute. discriminate.
    + reflexivity.
    + reflexivity.
    + intros Hrun. apply Hiff in Hrun. discriminate.
Defined.



(** X13.  Everything a tick does to the stores happens while its session is
    installed: every header lookup and the run of the session come after the
    installation and before the release in the trace of the tick. *)
Theorem Tick_works_inside_window (C : Collaborators) (m : Machine) :
  lock (sys m) = false -> current (sys m) = None ->
  forall e,
    In e (events_of (Tick m)) -> store_event e = true ->
    exists before after,
      events_of (Tick m) = before ++ e :: after /\
      In (EvInstall (length (heap m))) before /\
      In EvRelease after.
Proof.
  intros Hl Hc e.
  destruct (CurrentState (world m)) as [ls1 w1] eqn:E1.
  destruct (CurrentState w1) as [ls2 w2] eqn:E2.
  rewrite (Tick_idle m ls1 w1 ls2 w2 Hl Hc E1 E2). cbv zeta.
  cbn [events_of snd]. intros Hin Hstore.
  apply Tick_idle_events in Hin
    as [-> | [-> | [-> | [Hb | [-> | (pv & _ & [-> | ->])]]]]];
    try discriminate.
  apply in_split in Hb as (b1 & b2 & Hb). rewrite Hb.
  exists ([EvCurrentState ls1; EvInstall (length (heap m)); EvCurrentState ls2] ++ b1),
         (b2 ++ EvRelease ::
            panic_report (outcome_of
              (runOnce_body ls2 (Some (length (heap m))) (ticking m ls1 w2)))).
  split; [|split].
  - by rewrite <- !app_assoc.
  - simpl. auto.
  - rewrite in_app_iff. right. by left.
Qed.

(** Witness of X13: the lookup of header 101 during the tick that follows a
    history at 100. *)
Lemma Tick_works_inside_window_witness :
  exists before after,
    events_of (@Tick Scenario.env
      (Scenario.idle (Scenario.behind Scenario.linked Scenario.Healthy))) =
      before ++ EvHeaderBySequence 101 :: after /\
    In (EvInstall 0%nat) before /\ In EvRelease after.
Proof.
  apply (Tick_works_inside_window Scenario.env
           (Scenario.idle (Scenario.behind Scenario.linked Scenario.Healthy))
           eq_refl eq_refl).
  - vm_compute. tauto.
  - reflexivity.
Defined.

(** ** More on concurrent ticks *)

Section MoreInterleavingFacts.











End MoreInterleavingFacts.




